(** * gamedev-links: the digest pipeline's four heuristics

    A shallow embedding of [raw/fetch_dates.py], [raw/parse_digests.py],
    [raw/fetch_images.py] and [raw/classify.py], with the properties of the
    specification stated and proved over it.

    Layout: [Py] models the [str] methods the scripts call, [Re] the
    fragment of the [re] module they use (a backtracking matcher with the
    priorities of Python's), then one module per script. *)

From Stdlib Require DecimalN.
From stdpp Require Import base list numbers strings gmap sets.

(** ** Python strings *)

Module Py.

(** A [str] is a sequence of Unicode code points. *)
Abbreviation str := (list N).

(** String literals of this file are written as Rocq strings, which hold
    UTF-8 bytes; [py] decodes them (sequences of up to three bytes). *)
Fixpoint utf8 (bs : list N) : str :=
  match bs with
  | [] => []
  | b :: t =>
    if (b <? 128)%N then b :: utf8 t
    else
      match t with
      | [] => []
      | b1 :: t1 =>
        if (b <? 224)%N then ((b - 192) * 64 + (b1 - 128))%N :: utf8 t1
        else
          match t1 with
          | [] => []
          | b2 :: t2 =>
            (((b - 224) * 64 + (b1 - 128)) * 64 + (b2 - 128))%N :: utf8 t2
          end
      end
  end.

Definition py (s : string) : str :=
  utf8 (Ascii.N_of_ascii <$> String.list_ascii_of_string s).

(** The double quote, which the literals above cannot hold. *)
Definition dq : str := [34%N].

Definition in_range (lo hi c : N) : bool := ((lo <=? c) && (c <=? hi))%N.

(** Character tables.  They are given on the Basic Latin and Cyrillic
    blocks, the two scripts of the digests; [isspace] is Python's full
    table.  Any other code point is no digit, no word character and has
    no case. *)
Definition isdigit (c : N) : bool := in_range 48 57 c.

Definition isspace (c : N) : bool :=
  in_range 9 13 c || in_range 28 32 c || (c =? 133)%N || (c =? 160)%N
  || (c =? 5760)%N || in_range 8192 8202 c || (c =? 8232)%N
  || (c =? 8233)%N || (c =? 8239)%N || (c =? 8287)%N || (c =? 12288)%N.

Definition isword (c : N) : bool :=
  isdigit c || in_range 65 90 c || in_range 97 122 c || (c =? 95)%N
  || in_range 1024 1153 c || in_range 1162 1327 c.

Definition lower_cp (c : N) : N :=
  if in_range 65 90 c then (c + 32)%N
  else if in_range 1040 1071 c then (c + 32)%N
  else if in_range 1024 1039 c then (c + 80)%N
  else c.

(** [s.lower()] *)
Definition lower (s : str) : str := lower_cp <$> s.

(** [bool(s)] *)
Definition truthy (s : str) : bool :=
  match s with [] => false | _ :: _ => true end.

(** [s.lstrip()], [s.rstrip()], [s.strip()] *)
Fixpoint lstrip (s : str) : str :=
  match s with
  | [] => []
  | c :: t => if isspace c then lstrip t else s
  end.

Definition rstrip (s : str) : str := reverse (lstrip (reverse s)).

Definition strip (s : str) : str := rstrip (lstrip s).

(** [s.startswith(p)], [s.endswith(p)], [sub in s] *)
Fixpoint startswith (s p : str) : bool :=
  match p, s with
  | [], _ => true
  | _ :: _, [] => false
  | a :: p', b :: s' => (a =? b)%N && startswith s' p'
  end.

Definition endswith (s p : str) : bool := startswith (reverse s) (reverse p).

Fixpoint contains (s sub : str) : bool :=
  startswith s sub
  || match s with [] => false | _ :: t => contains t sub end.

(** [s[a:b]] for [0 <= a <= b]; like Python, a slice past the end is cut. *)
Definition slice (s : str) (a b : nat) : str := take (b - a) (drop a s).

(** [int(s)] on a string of decimal digits. *)
Definition int (s : str) : N :=
  fold_left (fun acc c => (10 * acc + (c - 48))%N) s 0%N.

(** [str(n)] and the format [{n:02d}]. *)
Fixpoint uint_str (u : Decimal.uint) : str :=
  match u with
  | Decimal.Nil => []
  | Decimal.D0 u => 48%N :: uint_str u
  | Decimal.D1 u => 49%N :: uint_str u
  | Decimal.D2 u => 50%N :: uint_str u
  | Decimal.D3 u => 51%N :: uint_str u
  | Decimal.D4 u => 52%N :: uint_str u
  | Decimal.D5 u => 53%N :: uint_str u
  | Decimal.D6 u => 54%N :: uint_str u
  | Decimal.D7 u => 55%N :: uint_str u
  | Decimal.D8 u => 56%N :: uint_str u
  | Decimal.D9 u => 57%N :: uint_str u
  end.

Definition dec (n : N) : str := uint_str (N.to_uint n).

Definition dec02 (n : N) : str :=
  if (n <? 10)%N then 48%N :: dec n else dec n.

End Py.

(** ** The fragment of [re] the scripts use *)

Module Re.
Import Py.

(** Every quantifier in the scripts' patterns applies to a single
    character class, so [Rep] repeats a class: [greedy] tells [x*] from
    [x*?], [lo] is the least count and [hi] the greatest ([None] for no
    bound).  [Grp g r] is the capturing group number [g]; [Bnd] is the
    word boundary. *)
Inductive regex : Type :=
| Eps
| Chr (p : N → bool)
| Rep (greedy : bool) (lo : nat) (hi : option nat) (p : N → bool)
| Cat (r1 r2 : regex)
| Alt (r1 r2 : regex)
| Grp (g : nat) (r : regex)
| Bnd.

Definition caps := list (nat * str).

Record rmatch := Match { m_start : nat; m_end : nat; m_caps : caps }.

(** [m.group(g)]: [None] when the group took no part in the match. *)
Fixpoint lookup_cap (g : nat) (cs : caps) : option str :=
  match cs with
  | [] => None
  | (g', s) :: cs' => if (g =? g')%nat then Some s else lookup_cap g cs'
  end.

Definition group (m : rmatch) (g : nat) : option str := lookup_cap g (m_caps m).

Definition word_of (o : option N) : bool :=
  match o with Some c => isword c | None => false end.

Definition at_boundary (pv : option N) (s : str) : bool :=
  xorb (word_of pv) (word_of (head s)).

Definition hi_open (hi : option nat) : bool :=
  match hi with Some O => false | _ => true end.

Section Matcher.
Context {A : Type}.

(** The matcher walks the subject with a cursor: the position [i], the
    character before it [pv] and the rest of the subject [s].  It
    backtracks through the continuation [k]: the first alternative
    whose continuation succeeds wins, as in Python. *)
Fixpoint rep (greedy : bool) (p : N → bool) (lo : nat) (hi : option nat)
    (i : nat) (pv : option N) (s : str)
    (k : nat → option N → str → option A) : option A :=
  match greedy with
  | true =>
    match
      match s with
      | c :: s' =>
        if p c && hi_open hi
        then rep greedy p (pred lo) (pred <$> hi) (S i) (Some c) s' k
        else None
      | [] => None
      end
    with
    | Some x => Some x
    | None => match lo with O => k i pv s | S _ => None end
    end
  | false =>
    match match lo with O => k i pv s | S _ => None end with
    | Some x => Some x
    | None =>
      match s with
      | c :: s' =>
        if p c && hi_open hi
        then rep greedy p (pred lo) (pred <$> hi) (S i) (Some c) s' k
        else None
      | [] => None
      end
    end
  end.

Fixpoint exec (r : regex) (i : nat) (pv : option N) (s : str) (cs : caps)
    (k : nat → option N → str → caps → option A) : option A :=
  match r with
  | Eps => k i pv s cs
  | Chr p =>
    match s with
    | c :: s' => if p c then k (S i) (Some c) s' cs else None
    | [] => None
    end
  | Rep g lo hi p => rep g p lo hi i pv s (fun i' pv' s' => k i' pv' s' cs)
  | Cat r1 r2 =>
    exec r1 i pv s cs (fun i' pv' s' cs' => exec r2 i' pv' s' cs' k)
  | Alt r1 r2 =>
    match exec r1 i pv s cs k with
    | Some x => Some x
    | None => exec r2 i pv s cs k
    end
  | Grp g r1 =>
    exec r1 i pv s cs
      (fun i' pv' s' cs' => k i' pv' s' ((g, take (i' - i) s) :: cs'))
  | Bnd => if at_boundary pv s then k i pv s cs else None
  end.
End Matcher.

(** A match attempt at one cursor: the end position and the groups. *)
Definition match_at (r : regex) (i : nat) (pv : option N) (s : str)
    : option (nat * caps) :=
  exec r i pv s [] (fun e _ _ cs => Some (e, cs)).

(** [re.match(r, s)] *)
Definition re_match (r : regex) (s : str) : option rmatch :=
  match match_at r 0 None s with
  | Some (e, cs) => Some (Match 0 e cs)
  | None => None
  end.

(** [re.search(r, s)]: the leftmost position with a match. *)
Fixpoint search_from (r : regex) (i : nat) (pv : option N) (s : str)
    : option rmatch :=
  match match_at r i pv s with
  | Some (e, cs) => Some (Match i e cs)
  | None =>
    match s with
    | [] => None
    | c :: s' => search_from r (S i) (Some c) s'
    end
  end.

Definition re_search (r : regex) (s : str) : option rmatch :=
  search_from r 0 None s.

(** [re.finditer(r, s)]: the successive non-overlapping matches.  [skip]
    counts the characters still covered by the last match.  None of the
    patterns iterated over matches the empty string. *)
Fixpoint finditer_from (r : regex) (skip i : nat) (pv : option N) (s : str)
    : list rmatch :=
  match skip with
  | S n =>
    match s with
    | [] => []
    | c :: s' => finditer_from r n (S i) (Some c) s'
    end
  | O =>
    match match_at r i pv s with
    | Some (e, cs) =>
      Match i e cs ::
        match s with
        | [] => []
        | c :: s' => finditer_from r (e - i - 1) (S i) (Some c) s'
        end
    | None =>
      match s with
      | [] => []
      | c :: s' => finditer_from r 0 (S i) (Some c) s'
      end
    end
  end.

Definition finditer (r : regex) (s : str) : list rmatch :=
  finditer_from r 0 0 None s.

(** [re.findall(r, s)] for a pattern with one group: the group's text. *)
Definition findall (r : regex) (s : str) : list str :=
  (fun m => default [] (group m 1)) <$> finditer r s.

(** [re.sub(r, repl, s)] for a replacement without back-references. *)
Fixpoint sub_from (r : regex) (repl : str) (skip i : nat) (pv : option N)
    (s : str) : str :=
  match skip with
  | S n =>
    match s with
    | [] => []
    | c :: s' => sub_from r repl n (S i) (Some c) s'
    end
  | O =>
    match match_at r i pv s with
    | Some (e, _) =>
      repl ++
        match s with
        | [] => []
        | c :: s' => sub_from r repl (e - i - 1) (S i) (Some c) s'
        end
    | None =>
      match s with
      | [] => []
      | c :: s' => c :: sub_from r repl 0 (S i) (Some c) s'
      end
    end
  end.

Definition re_sub (r : regex) (repl s : str) : str :=
  sub_from r repl 0 0 None s.

(** Pattern syntax. *)
Definition cat (rs : list regex) : regex := foldr Cat Eps rs.

Definition ch (c : N) : N → bool := N.eqb c.

(** A literal character under [re.IGNORECASE]. *)
Definition ch_nocase (c : N) : N → bool := fun x => (lower_cp x =? lower_cp c)%N.

Definition lit (s : str) : regex := cat (Chr ∘ ch <$> s).
Definition lit_nocase (s : str) : regex := cat (Chr ∘ ch_nocase <$> s).

(** [.] under [re.DOTALL], a negated class and a class. *)
Definition any : N → bool := fun _ => true.
Definition none_of (cs : str) : N → bool := fun x => negb (existsb (N.eqb x) cs).
Definition one_of (cs : str) : N → bool := fun x => existsb (N.eqb x) cs.

Definition star (p : N → bool) : regex := Rep true 0 None p.
Definition plus (p : N → bool) : regex := Rep true 1 None p.
Definition lazy_star (p : N → bool) : regex := Rep false 0 None p.
Definition times (lo hi : nat) (p : N → bool) : regex := Rep true lo (Some hi) p.

End Re.

(** ** raw/fetch_dates.py *)

Module FetchDates.
Import Py Re.

Definition DEFAULT_DATE : str := Eval vm_compute in py "01.01.1970".

(** [(\d{4})-(\d{1,2})-(\d{1,2})] *)
Definition RE_ISO : regex :=
  cat [Grp 1 (times 4 4 isdigit); Chr (ch 45); Grp 2 (times 1 2 isdigit);
       Chr (ch 45); Grp 3 (times 1 2 isdigit)].

(** [(\d{1,2})/(\d{1,2})/(\d{4})] *)
Definition RE_US : regex :=
  cat [Grp 1 (times 1 2 isdigit); Chr (ch 47); Grp 2 (times 1 2 isdigit);
       Chr (ch 47); Grp 3 (times 4 4 isdigit)].

(** [(\d{1,2})\.(\d{1,2})\.(\d{4})] *)
Definition RE_EU : regex :=
  cat [Grp 1 (times 1 2 isdigit); Chr (ch 46); Grp 2 (times 1 2 isdigit);
       Chr (ch 46); Grp 3 (times 4 4 isdigit)].

(** [int(m.group(g))] *)
Definition int_group (m : rmatch) (g : nat) : N := int (default [] (group m g)).

(** [1990 <= year <= 2030 and 1 <= month <= 12 and 1 <= day <= 31] *)
Definition plausible (year month day : N) : bool :=
  ((1990 <=? year) && (year <=? 2030) && (1 <=? month) && (month <=? 12)
   && (1 <=? day) && (day <=? 31))%N.

(** [f"{day:02d}.{month:02d}.{year}"] *)
Definition format_date (day month year : N) : str :=
  dec02 day ++ [46%N] ++ dec02 month ++ [46%N] ++ dec year.

Definition parse_date_string (raw : str) : option str :=
  if negb (truthy raw) || negb (truthy (strip raw)) then None
  else
    let raw := strip raw in
    match
      match re_match RE_ISO raw with
      | Some m =>
        let year := int_group m 1 in
        let month := int_group m 2 in
        let day := int_group m 3 in
        if plausible year month day then Some (format_date day month year)
        else None
      | None => None
      end
    with
    | Some d => Some d
    | None =>
      match
        match re_match RE_US raw with
        | Some m =>
          let month := int_group m 1 in
          let day := int_group m 2 in
          let year := int_group m 3 in
          if plausible year month day then Some (format_date day month year)
          else None
        | None => None
        end
      with
      | Some d => Some d
      | None =>
        match re_match RE_EU raw with
        | Some m =>
          let day := int_group m 1 in
          let month := int_group m 2 in
          let year := int_group m 3 in
          if plausible year month day then Some (format_date day month year)
          else None
        | None => None
        end
      end
    end.

(** [/(\d{4})/(\d{1,2})/(\d{1,2})/] *)
Definition RE_URL_SLASH : regex :=
  cat [Chr (ch 47); Grp 1 (times 4 4 isdigit); Chr (ch 47);
       Grp 2 (times 1 2 isdigit); Chr (ch 47); Grp 3 (times 1 2 isdigit);
       Chr (ch 47)].

(** [/(\d{4})-(\d{2})-(\d{2})/] *)
Definition RE_URL_DASH : regex :=
  cat [Chr (ch 47); Grp 1 (times 4 4 isdigit); Chr (ch 45);
       Grp 2 (times 2 2 isdigit); Chr (ch 45); Grp 3 (times 2 2 isdigit);
       Chr (ch 47)].

Definition extract_date_from_url (url : str) : option str :=
  match
    match re_search RE_URL_SLASH url with
    | Some m =>
      let year := int_group m 1 in
      let month := int_group m 2 in
      let day := int_group m 3 in
      if plausible year month day then Some (format_date day month year)
      else None
    | None => None
    end
  with
  | Some d => Some d
  | None =>
    match re_search RE_URL_DASH url with
    | Some m =>
      let year := int_group m 1 in
      let month := int_group m 2 in
      let day := int_group m 3 in
      if plausible year month day then Some (format_date day month year)
      else None
    | None => None
    end
  end.

(** The two quote characters, and anything but them. *)
Definition quote : N → bool := one_of [34; 39]%N.
Definition unquoted : N → bool := none_of [34; 39]%N.

(** The pattern of the metadata strategies, compiled with [re.IGNORECASE];
    [attr] is [property] or [name] and [key] the (escaped) field name:
    [<meta\s+(?:attr=Q key Q\s+content=Q([^Q]+)Q|content=Q([^Q]+)Q\s+attr=Q key Q)]
    where [Q] stands for the class of the two quotes. *)
Definition RE_META (attr key : str) : regex :=
  cat [lit_nocase (py "<meta"); plus isspace;
       Alt
         (cat [lit_nocase attr; lit_nocase (py "="); Chr quote; lit_nocase key;
               Chr quote; plus isspace; lit_nocase (py "content="); Chr quote;
               Grp 1 (plus unquoted); Chr quote])
         (cat [lit_nocase (py "content="); Chr quote; Grp 2 (plus unquoted);
               Chr quote; plus isspace; lit_nocase attr; lit_nocase (py "=");
               Chr quote; lit_nocase key; Chr quote])].

(** [<script[^>]+type=Q application/ld\+json Q[^>]*>(.*?)</script>],
    with [re.DOTALL | re.IGNORECASE]. *)
Definition RE_LD_BLOCK : regex :=
  cat [lit_nocase (py "<script"); plus (none_of [62]%N);
       lit_nocase (py "type="); Chr quote;
       lit_nocase (py "application/ld+json"); Chr quote;
       star (none_of [62]%N); Chr (ch 62); Grp 1 (lazy_star any);
       lit_nocase (py "</script>")].

(** [\x22datePublished\x22\s*:\s*\x22([^\x22]+)\x22] *)
Definition RE_DATE_PUBLISHED : regex :=
  cat [lit dq; lit (py "datePublished"); lit dq; star isspace; Chr (ch 58);
       star isspace; lit dq; Grp 1 (plus (none_of dq)); lit dq].

(** [<time[^>]+datetime=Q([^Q]+)Q], with [re.IGNORECASE]. *)
Definition RE_TIME : regex :=
  cat [lit_nocase (py "<time"); plus (none_of [62]%N);
       lit_nocase (py "datetime="); Chr quote; Grp 1 (plus unquoted);
       Chr quote].

(** [raw = m.group(1) or m.group(2)] followed by [parse_date_string(raw)]:
    a group that took no part is [None], which [parse_date_string]
    rejects at its first test. *)
Definition parse_group_1_or_2 (m : rmatch) : option str :=
  match
    match group m 1 with
    | Some (c :: g) => Some (c :: g)
    | _ => group m 2
    end
  with
  | Some raw => parse_date_string raw
  | None => None
  end.

Definition META_NAMES : list str :=
  [py "date"; py "pubdate"; py "DC.date.issued"; py "publish_date";
   py "article:published"].

(** Strategy 1: Open Graph [article:published_time]. *)
Definition og_date (html : str) : option str :=
  match re_search (RE_META (py "property") (py "article:published_time")) html with
  | Some m => parse_group_1_or_2 m
  | None => None
  end.

(** Strategy 2: the loop over the [meta name=...] fields. *)
Fixpoint meta_date (names : list str) (html : str) : option str :=
  match names with
  | [] => None
  | name :: names' =>
    match
      match re_search (RE_META (py "name") name) html with
      | Some m => parse_group_1_or_2 m
      | None => None
      end
    with
    | Some parsed => Some parsed
    | None => meta_date names' html
    end
  end.

(** Strategy 3: the loop over the JSON-LD blocks. *)
Fixpoint jsonld_date (ld_blocks : list str) : option str :=
  match ld_blocks with
  | [] => None
  | block :: blocks' =>
    match
      match re_search RE_DATE_PUBLISHED block with
      | Some m => parse_date_string (default [] (group m 1))
      | None => None
      end
    with
    | Some parsed => Some parsed
    | None => jsonld_date blocks'
    end
  end.

(** Strategy 4: the loop over the [<time datetime=...>] elements. *)
Fixpoint time_date (time_matches : list str) : option str :=
  match time_matches with
  | [] => None
  | raw :: rest =>
    match parse_date_string raw with
    | Some parsed => Some parsed
    | None => time_date rest
    end
  end.

Definition extract_date_from_html (html url : str) : option str :=
  match og_date html with
  | Some parsed => Some parsed
  | None =>
    match meta_date META_NAMES html with
    | Some parsed => Some parsed
    | None =>
      match jsonld_date (findall RE_LD_BLOCK html) with
      | Some parsed => Some parsed
      | None =>
        match time_date (findall RE_TIME html) with
        | Some parsed => Some parsed
        | None =>
          match extract_date_from_url url with
          | Some url_date => Some url_date
          | None => None
          end
        end
      end
    end
  end.

Section Fetch.
(** [fetch_url] is the network collaborator: the document's text, or
    [None] when anything went wrong. *)
Variable fetch_url : str → option str.

Definition process_single_url (url : str) : str * str :=
  match
    match fetch_url url with
    | Some (c :: html) => extract_date_from_html (c :: html) url
    | _ => None
    end
  with
  | Some date => (url, date)
  | None =>
    match extract_date_from_url url with
    | Some date => (url, date)
    | None => (url, DEFAULT_DATE)
    end
  end.
End Fetch.

(** A record of data.json is a JSON object; the script reads its [Link]
    and writes its [Date], both strings, and the model keeps the string
    fields.  [record[key]] raises KeyError on a missing key: [None] below. *)
Abbreviation record := (gmap str str).

(** [apply_dates]: the records as they are saved, and the two counters
    of the report. *)
Fixpoint apply_dates_loop (progress : gmap str str) (data : list record)
    (found not_found : nat) : option (list record * nat * nat) :=
  match data with
  | [] => Some ([], found, not_found)
  | record :: data' =>
    match record !! py "Link" with
    | None => None
    | Some url =>
      let date := default DEFAULT_DATE (progress !! url) in
      let record := <[py "Date" := date]> record in
      match
        (if bool_decide (date ≠ DEFAULT_DATE)
         then apply_dates_loop progress data' (found + 1) not_found
         else apply_dates_loop progress data' found (not_found + 1))
      with
      | Some (data', found, not_found) => Some (record :: data', found, not_found)
      | None => None
      end
    end
  end.

Definition apply_dates (data : list record) (progress : gmap str str)
    : option (list record * nat * nat) :=
  apply_dates_loop progress data 0 0.

(** The first loop of [main]: the links that are not in the progress
    file, each once, in the order of the records. *)
Fixpoint collect_urls (progress : gmap str str) (data : list record)
    (urls_to_process : list str) (seen : gset str) : option (list str) :=
  match data with
  | [] => Some urls_to_process
  | record :: data' =>
    match record !! py "Link" with
    | None => None
    | Some url =>
      if bool_decide (progress !! url = None) && bool_decide (url ∉ seen)
      then collect_urls progress data' (urls_to_process ++ [url]) (seen ∪ {[url]})
      else collect_urls progress data' urls_to_process seen
    end
  end.

Section Main.
Variable fetch_url : str → option str.
(** [as_completed] hands the submitted work back in the order in which
    the pool finishes it. *)
Variable as_completed : list str → list str.

(** The second loop of [main]: [progress[url] = date] for each piece of
    work that comes back. *)
Definition record_dates (completed : list str) (progress : gmap str str)
    : gmap str str :=
  foldl (λ progress url, <[url := (process_single_url fetch_url url).2]> progress)
        progress completed.

(** [main]: the progress as it is in memory at the end, and what
    [apply_dates] saves and reports. *)
Definition main (data : list record) (progress : gmap str str)
    : option (gmap str str * (list record * nat * nat)) :=
  match collect_urls progress data [] ∅ with
  | None => None
  | Some urls_to_process =>
    match urls_to_process with
    | [] =>
      match apply_dates data progress with
      | Some saved => Some (progress, saved)
      | None => None
      end
    | _ :: _ =>
      let progress := record_dates (as_completed urls_to_process) progress in
      match apply_dates data progress with
      | Some saved => Some (progress, saved)
      | None => None
      end
    end
  end.
End Main.

End FetchDates.

(** ** raw/parse_digests.py *)

Module ParseDigests.
Import Py Re.

Record resource := Resource { Link : str; Title : str; Description : str }.

(** [<article[^>]*>(.*?)</article>], with [re.DOTALL]. *)
Definition RE_ARTICLE : regex :=
  cat [lit (py "<article"); star (none_of [62]%N); Chr (ch 62);
       Grp 1 (lazy_star any); lit (py "</article>")].

(** [<h3[^>]*>(.*?)</h3>], with [re.DOTALL]. *)
Definition h3_pattern : regex :=
  cat [lit (py "<h3"); star (none_of [62]%N); Chr (ch 62);
       Grp 1 (lazy_star any); lit (py "</h3>")].

(** [<a\s+href=\x22([^\x22]+)\x22[^>]*>(.*?)</a>], with [re.DOTALL]. *)
Definition RE_LINK_IN_H3 : regex :=
  cat [lit (py "<a"); plus isspace; lit (py "href="); lit dq;
       Grp 1 (plus (none_of dq)); lit dq; star (none_of [62]%N); Chr (ch 62);
       Grp 2 (lazy_star any); lit (py "</a>")].

(** [<a\s+href=\x22([^\x22]+)\x22] *)
Definition RE_BLOCK_LINK : regex :=
  cat [lit (py "<a"); plus isspace; lit (py "href="); lit dq;
       Grp 1 (plus (none_of dq)); lit dq].

(** [<[^>]+>] and [\s+] *)
Definition RE_TAG : regex :=
  cat [Chr (ch 60); plus (none_of [62]%N); Chr (ch 62)].
Definition RE_SPACES : regex := plus isspace.

(** [not link], for a [link] that is [None] or a string. *)
Definition falsy (o : option str) : bool :=
  match o with Some (_ :: _) => false | _ => true end.

(** The loop over [block_links]: the first link that is no upload, no
    fragment and starts with [http]. *)
Fixpoint first_resource_link (block_links : list str) : option str :=
  match block_links with
  | [] => None
  | candidate :: rest =>
    if contains candidate (py "wp-content/uploads") then first_resource_link rest
    else if startswith candidate (py "#") then first_resource_link rest
    else if negb (startswith candidate (py "http")) then first_resource_link rest
    else Some candidate
  end.

(** The self-link test of both scripts. *)
Definition is_self_link (link : str) : bool :=
  contains link (py "suvitruf.ru") && negb (contains link (py "wp-content")).

(** The description of a content block. *)
Definition describe (block_html : str) : str :=
  let desc_text := re_sub RE_TAG (py " ") block_html in
  let desc_text := strip (re_sub RE_SPACES (py " ") desc_text) in
  if (200 <? length desc_text)%nat then take 197 desc_text ++ py "..."
  else desc_text.

(** The content block of the heading number [i]: from the end of its
    match to the start of the next heading, or to the end. *)
Definition block_of (article_html : str) (h3_matches : list rmatch)
    (i : nat) (mt : rmatch) : str :=
  let start := m_end mt in
  let end_ :=
    match h3_matches !! (i + 1)%nat with
    | Some next => m_start next
    | None => length article_html
    end in
  slice article_html start end_.

Section Digest.
(** [html.unescape], of the standard library. *)
Variable unescape : str → str.

(** One turn of the loop over the headings: [None] is [continue],
    [Some r] appends [r]. *)
Definition digest_entry (article_html : str) (h3_matches : list rmatch)
    (i : nat) (mt : rmatch) : option resource :=
  let h3_inner := strip (default [] (group mt 1)) in
  let link_in_h3 := re_search RE_LINK_IN_H3 h3_inner in
  let '(link, title) :=
    match link_in_h3 with
    | Some l =>
      (Some (strip (default [] (group l 1))),
       strip (re_sub RE_TAG [] (default [] (group l 2))))
    | None => (None, strip (re_sub RE_TAG [] h3_inner))
    end in
  let title := unescape title in
  if negb (truthy title) then None
  else
    let block_html := block_of article_html h3_matches i mt in
    let link :=
      if falsy link
      then first_resource_link (findall RE_BLOCK_LINK block_html)
      else link in
    match link with
    | Some (c :: l) =>
      let link := c :: l in
      if is_self_link link then None
      else Some (Resource link title (describe block_html))
    | _ => None
    end.

Fixpoint digest_loop (article_html : str) (h3_matches : list rmatch)
    (todo : list (nat * rmatch)) (resources : list resource)
    : list resource :=
  match todo with
  | [] => resources
  | (i, mt) :: todo' =>
    match digest_entry article_html h3_matches i mt with
    | Some r => digest_loop article_html h3_matches todo' (resources ++ [r])
    | None => digest_loop article_html h3_matches todo' resources
    end
  end.

(** [enumerate(l)] *)
Definition enumerate {A} (l : list A) : list (nat * A) := imap pair l.

Definition extract_resources_from_digest (html : str) : list resource :=
  match re_search RE_ARTICLE html with
  | None => []
  | Some article_match =>
    let article_html := default [] (group article_match 1) in
    let h3_matches := finditer h3_pattern article_html in
    digest_loop article_html h3_matches (enumerate h3_matches) []
  end.
End Digest.

(** [<article[^>]*>.*?</article>], with [re.DOTALL]. *)
Definition RE_ARTICLE_BLOCK : regex :=
  cat [lit (py "<article"); star (none_of [62]%N); Chr (ch 62);
       lazy_star any; lit (py "</article>")].

Definition DIGEST_WORDS : str := py "Недельный геймдев".

(** [<h1[^>]*>\s*<a\s+href=\x22([^\x22]+)\x22[^>]*>(T)</a>], where the
    text [T] of the anchor is [[^<]*Недельный геймдев[^<]*]. *)
Definition RE_H1_LINK : regex :=
  cat [lit (py "<h1"); star (none_of [62]%N); Chr (ch 62); star isspace;
       lit (py "<a"); plus isspace; lit (py "href="); lit dq;
       Grp 1 (plus (none_of dq)); lit dq; star (none_of [62]%N); Chr (ch 62);
       Grp 2 (cat [star (none_of [60]%N); lit DIGEST_WORDS;
                   star (none_of [60]%N)]);
       lit (py "</a>")].

Section Listing.
Variable unescape : str → str.

(** The body of the loop of [get_digest_urls_from_listing]: the digest
    that an article of the listing announces, if it announces one. *)
Definition listed_digest (article : str) : option (str * str) :=
  match re_search RE_H1_LINK article with
  | Some h1_match =>
    let url := default [] (group h1_match 1) in
    let title := unescape (strip (default [] (group h1_match 2))) in
    Some (url, title)
  | None => None
  end.

(** [re.findall] of a pattern without a group returns the texts of the
    matches. *)
Definition get_digest_urls_from_listing (html : str) : list (str * str) :=
  let articles :=
    (λ m, slice html (m_start m) (m_end m)) <$> finditer RE_ARTICLE_BLOCK html in
  omap listed_digest articles.
End Listing.

End ParseDigests.

(** ** raw/fetch_images.py *)

Module FetchImages.
Import Py Re ParseDigests.

(** [<a\s+href=\x22([^\x22]+)\x22[^>]*>], with [re.DOTALL]. *)
Definition RE_LINK_OPEN : regex :=
  cat [lit (py "<a"); plus isspace; lit (py "href="); lit dq;
       Grp 1 (plus (none_of dq)); lit dq; star (none_of [62]%N); Chr (ch 62)].

(** [<img[^>]+src=Q(U wp-content/uploads U)Q], with [re.IGNORECASE];
    [Q] is the class of the two quotes and [U] any run without them. *)
Definition img_pattern : regex :=
  cat [lit_nocase (py "<img"); plus (none_of [62]%N); lit_nocase (py "src=");
       Chr FetchDates.quote;
       Grp 1 (cat [star FetchDates.unquoted;
                   lit_nocase (py "wp-content/uploads");
                   star FetchDates.unquoted]);
       Chr FetchDates.quote].

(** The loop over the images of a zone: the first one not yet claimed. *)
Fixpoint first_unclaimed (claimed_images : gset str) (imgs : list rmatch)
    : option str :=
  match imgs with
  | [] => None
  | img_match :: rest =>
    let img_url := default [] (group img_match 1) in
    if bool_decide (img_url ∉ claimed_images) then Some img_url
    else first_unclaimed claimed_images rest
  end.

(** The resource link of the heading number [i]. *)
Definition resource_link_of (article_html : str) (h3_matches : list rmatch)
    (i : nat) (mt : rmatch) : option str :=
  let h3_inner := strip (default [] (group mt 1)) in
  match re_search RE_LINK_OPEN h3_inner with
  | Some l => Some (strip (default [] (group l 1)))
  | None =>
    let start := m_end mt in
    let end_ :=
      match h3_matches !! (i + 1)%nat with
      | Some next => m_start next
      | None => length article_html
      end in
    let block_html := slice article_html start end_ in
    first_resource_link (findall RE_BLOCK_LINK block_html)
  end.

(** The image found for the heading number [i]: the after-zone first, then
    the before-zone. *)
Definition find_image (article_html : str) (h3_matches : list rmatch)
    (claimed_images : gset str) (i : nat) (mt : rmatch) : option str :=
  let after_start := m_end mt in
  let after_end :=
    match h3_matches !! (i + 1)%nat with
    | Some next => m_start next
    | None => length article_html
    end in
  let after_zone := slice article_html after_start after_end in
  let before_start :=
    match i with
    | O => O
    | S j => match h3_matches !! j with Some p => m_end p | None => O end
    end in
  let before_end := m_start mt in
  let before_zone := slice article_html before_start before_end in
  let found_img := first_unclaimed claimed_images (finditer img_pattern after_zone) in
  if falsy found_img
  then first_unclaimed claimed_images (finditer img_pattern before_zone)
  else found_img.

(** One turn of the loop over the headings, on the pair of
    [claimed_images] and [image_map]. *)
Definition image_step (article_html : str) (h3_matches : list rmatch)
    (st : gset str * gmap str str) (i : nat) (mt : rmatch)
    : gset str * gmap str str :=
  let '(claimed_images, image_map) := st in
  match resource_link_of article_html h3_matches i mt with
  | Some (c :: l) =>
    let resource_link := c :: l in
    if is_self_link resource_link then st
    else
      match find_image article_html h3_matches claimed_images i mt with
      | Some (d :: u) =>
        let found_img := d :: u in
        ({[found_img]} ∪ claimed_images, <[resource_link := found_img]> image_map)
      | _ => st
      end
  | _ => st
  end.

Fixpoint image_loop (article_html : str) (h3_matches : list rmatch)
    (todo : list (nat * rmatch)) (st : gset str * gmap str str)
    : gset str * gmap str str :=
  match todo with
  | [] => st
  | (i, mt) :: todo' =>
    image_loop article_html h3_matches todo'
      (image_step article_html h3_matches st i mt)
  end.

Definition extract_image_map (html : str) : gmap str str :=
  match re_search RE_ARTICLE html with
  | None => ∅
  | Some article_match =>
    let article_html := default [] (group article_match 1) in
    let h3_matches := finditer h3_pattern article_html in
    match h3_matches with
    | [] => ∅
    | _ :: _ =>
      (image_loop article_html h3_matches (enumerate h3_matches) (∅, ∅)).2
    end
  end.

Section Tasks.
(** In [process_digest_images] the names of the files come from
    [clean_filename] and [os.path.splitext], collaborators here. *)
Variable clean_filename : str → str.
Variable splitext : str → str * str.

(** The [while] loop that numbers a name until it is free; [fuel] bounds
    its turns. *)
Fixpoint free_name (fuel : nat) (used_filenames : gset str)
    (base_name ext final_name : str) (counter : N) : option str :=
  match fuel with
  | O => None
  | S fuel =>
    if bool_decide (final_name ∈ used_filenames)
    then free_name fuel used_filenames base_name ext
           (base_name ++ py "_" ++ dec counter ++ ext) (counter + 1)%N
    else Some final_name
  end.

(** The loop that prepares the download tasks, over the items of the
    image map in the order of the dictionary: a task is the resource
    link, the image and the name of the file in the directory of the
    digest. *)
Fixpoint prepare_tasks (fuel : nat) (items : list (str * str))
    (used_filenames : gset str) (tasks : list (str * str * str))
    : option (list (str * str * str)) :=
  match items with
  | [] => Some tasks
  | (resource_link, img_url) :: items' =>
    let filename := clean_filename img_url in
    let '(base_name, ext) := splitext filename in
    match free_name fuel used_filenames base_name ext filename 2 with
    | None => None
    | Some final_name =>
      prepare_tasks fuel items' (used_filenames ∪ {[final_name]})
        (tasks ++ [(resource_link, img_url, final_name)])
    end
  end.
End Tasks.

End FetchImages.

(** ** raw/classify.py *)

Module Classify.
Import Py Re.

Definition VIDEO_DOMAINS : gset str :=
  list_to_set [py "youtube.com"; py "youtu.be"; py "vimeo.com"; py "twitch.tv"].
Definition SOCIAL_DOMAINS : gset str :=
  list_to_set [py "twitter.com"; py "x.com"; py "reddit.com"].
Definition ARTICLE_DOMAINS : gset str :=
  list_to_set
    [py "80.lv"; py "habr.com"; py "dtf.ru"; py "gamedeveloper.com";
     py "newsletter.gamediscover.co"; py "kotaku.com"; py "venturebeat.com";
     py "wccftech.com"; py "nplus1.ru"; py "3dnews.ru"; py "vc.ru"].
Definition REPO_DOMAINS : gset str :=
  list_to_set [py "github.com"; py "gitlab.com"].
Definition STORE_DOMAINS : gset str :=
  list_to_set
    [py "store.steampowered.com"; py "store.epicgames.com";
     py "assetstore.unity.com"; py "fab.com"; py "itch.io"; py "gumroad.com"].

(** [domain in DOMAINS] *)
Definition member (domain : str) (domains : gset str) : bool :=
  bool_decide (domain ∈ domains).

(** The loop [for d in DOMAINS: if domain.endswith(. + d): return ...]:
    whether it returns. *)
Definition subdomain_of_any (domain : str) (domains : gset str) : bool :=
  existsb (fun d => endswith domain (py "." ++ d)) (elements domains).

Definition classify_type (domain : str) : str :=
  if member domain VIDEO_DOMAINS then py "video"
  else if member domain SOCIAL_DOMAINS then py "social"
  else if member domain REPO_DOMAINS then py "repository"
  else if member domain STORE_DOMAINS then py "store"
  else if member domain ARTICLE_DOMAINS then py "article"
  else if subdomain_of_any domain VIDEO_DOMAINS then py "video"
  else if subdomain_of_any domain SOCIAL_DOMAINS then py "social"
  else if subdomain_of_any domain REPO_DOMAINS then py "repository"
  else if subdomain_of_any domain STORE_DOMAINS then py "store"
  else py "article".

(** [\bTOKEN\b], and the same under [re.IGNORECASE]. *)
Definition word (token : str) : regex := cat [Bnd; lit token; Bnd].
Definition word_nocase (token : str) : regex := cat [Bnd; lit_nocase token; Bnd].

Definition RE_AI : regex := word (py "AI").
Definition RE_VR : regex := word (py "VR").
Definition RE_AR : regex := word (py "AR").
Definition RE_XR : regex := word (py "XR").
Definition RE_FREE : regex := word_nocase (py "free").
Definition RE_MAYA : regex := word (py "Maya").
Definition RE_SWITCH : regex := word (py "Switch").
Definition RE_UE4 : regex := word (py "UE4").
Definition RE_UE5 : regex := word (py "UE5").

(** The truth value of [RE.search(text)]. *)
Definition found (r : regex) (text : str) : bool :=
  match re_search r text with Some _ => true | None => false end.

(** [domain == d] *)
Definition same (domain d : str) : bool := bool_decide (domain = d).

(** The rules of [classify_tags], one per block of the source, each
    taking the list [tags] built so far to its successor. *)
Section Rules.
Variables domain text : str.

(* Unreal Engine *)
Definition rule_unreal_engine (tags : list str) : list str :=
  if endswith domain (py "unrealengine.com") || same domain (py "unrealengine.com")
  then tags ++ [py "unreal engine"]
  else if contains (lower text) (py "unreal engine")
          || contains (lower text) (py "unreal")
          || found RE_UE4 text || found RE_UE5 text
  then tags ++ [py "unreal engine"]
  else tags.

(* Unity *)
Definition rule_unity (tags : list str) : list str :=
  if bool_decide (domain ∈ [py "blog.unity.com"; py "unity.com"])
     || endswith domain (py ".unity.com")
  then tags ++ [py "unity"]
  else if contains (lower text) (py "unity") then tags ++ [py "unity"]
  else tags.

(* Godot *)
Definition rule_godot (tags : list str) : list str :=
  if endswith domain (py "godotengine.org") || same domain (py "godotengine.org")
  then tags ++ [py "godot"]
  else if contains (lower text) (py "godot") then tags ++ [py "godot"]
  else tags.

(* Blender *)
Definition rule_blender (tags : list str) : list str :=
  if contains (lower text) (py "blender") then tags ++ [py "blender"] else tags.

(* Houdini *)
Definition rule_houdini (tags : list str) : list str :=
  if contains (lower text) (py "houdini") then tags ++ [py "houdini"] else tags.

(* Substance *)
Definition rule_substance (tags : list str) : list str :=
  if contains (lower text) (py "substance") then tags ++ [py "substance"]
  else tags.

(* Maya (word boundary) *)
Definition rule_maya (tags : list str) : list str :=
  if found RE_MAYA text then tags ++ [py "maya"] else tags.

(* ZBrush *)
Definition rule_zbrush (tags : list str) : list str :=
  if contains (lower text) (py "zbrush") then tags ++ [py "zbrush"] else tags.

(* Opensource *)
Definition rule_opensource (tags : list str) : list str :=
  if bool_decide (domain ∈ [py "github.com"; py "gitlab.com"])
     || endswith domain (py ".github.com") || endswith domain (py ".gitlab.com")
  then tags ++ [py "opensource"]
  else if existsb (fun kw => contains (lower text) kw)
            [py "open source"; py "opensource"; py "открытый код";
             py "open-source"]
  then tags ++ [py "opensource"]
  else tags.

(* Free *)
Definition rule_free (tags : list str) : list str :=
  if contains (lower text) (py "бесплатн") || found RE_FREE text
     || same domain (py "itch.io") || endswith domain (py ".itch.io")
  then tags ++ [py "free"]
  else tags.

(* Steam *)
Definition rule_steam (tags : list str) : list str :=
  if endswith domain (py "steampowered.com") || same domain (py "steampowered.com")
  then tags ++ [py "steam"]
  else if contains (lower text) (py "steam") then tags ++ [py "steam"]
  else tags.

(* PlayStation *)
Definition rule_playstation (tags : list str) : list str :=
  if existsb (fun kw => contains (lower text) kw) [py "playstation"]
     || existsb (fun kw => contains text kw) [py "PS4"; py "PS5"]
  then tags ++ [py "playstation"]
  else tags.

(* Xbox *)
Definition rule_xbox (tags : list str) : list str :=
  if contains (lower text) (py "xbox") then tags ++ [py "xbox"] else tags.

(* Nintendo *)
Definition rule_nintendo (tags : list str) : list str :=
  if contains (lower text) (py "nintendo") || found RE_SWITCH text
  then tags ++ [py "nintendo"]
  else tags.

(* AI *)
Definition rule_ai (tags : list str) : list str :=
  if found RE_AI text || contains (lower text) (py "machine learning")
     || contains (lower text) (py "нейросет")
     || contains (lower text) (py "искусственн")
  then tags ++ [py "ai"]
  else tags.

(* XR (VR/AR/XR) *)
Definition rule_xr (tags : list str) : list str :=
  if found RE_VR text || found RE_AR text || found RE_XR text
     || contains (lower text) (py "virtual reality")
     || contains (lower text) (py "виртуальн")
  then tags ++ [py "xr"]
  else tags.

(* Shaders *)
Definition rule_shaders (tags : list str) : list str :=
  if contains (lower text) (py "shader") || contains (lower text) (py "шейдер")
  then tags ++ [py "shaders"]
  else tags.

(* Animation *)
Definition rule_animation (tags : list str) : list str :=
  if contains (lower text) (py "animation") || contains (lower text) (py "анимаци")
  then tags ++ [py "animation"]
  else tags.

(* Procedural *)
Definition rule_procedural (tags : list str) : list str :=
  if contains (lower text) (py "procedural")
     || contains (lower text) (py "процедурн")
  then tags ++ [py "procedural"]
  else tags.

Definition classify_tags : list str :=
  let tags := [] in
  let tags := rule_unreal_engine tags in
  let tags := rule_unity tags in
  let tags := rule_godot tags in
  let tags := rule_blender tags in
  let tags := rule_houdini tags in
  let tags := rule_substance tags in
  let tags := rule_maya tags in
  let tags := rule_zbrush tags in
  let tags := rule_opensource tags in
  let tags := rule_free tags in
  let tags := rule_steam tags in
  let tags := rule_playstation tags in
  let tags := rule_xbox tags in
  let tags := rule_nintendo tags in
  let tags := rule_ai tags in
  let tags := rule_xr tags in
  let tags := rule_shaders tags in
  let tags := rule_animation tags in
  let tags := rule_procedural tags in
  tags.
End Rules.

End Classify.

(** ** The vocabulary of the statements *)

Import Py Re FetchDates ParseDigests FetchImages Classify.

Definition tag_rules (domain text : str) : list (bool * str) :=
  [ (endswith domain (py "unrealengine.com") || same domain (py "unrealengine.com")
     || (contains (lower text) (py "unreal engine")
         || contains (lower text) (py "unreal")
         || found RE_UE4 text || found RE_UE5 text), py "unreal engine");
    (bool_decide (domain ∈ [py "blog.unity.com"; py "unity.com"])
     || endswith domain (py ".unity.com")
     || contains (lower text) (py "unity"), py "unity");
    (endswith domain (py "godotengine.org") || same domain (py "godotengine.org")
     || contains (lower text) (py "godot"), py "godot");
    (contains (lower text) (py "blender"), py "blender");
    (contains (lower text) (py "houdini"), py "houdini");
    (contains (lower text) (py "substance"), py "substance");
    (found RE_MAYA text, py "maya");
    (contains (lower text) (py "zbrush"), py "zbrush");
    (bool_decide (domain ∈ [py "github.com"; py "gitlab.com"])
     || endswith domain (py ".github.com") || endswith domain (py ".gitlab.com")
     || existsb (fun kw => contains (lower text) kw)
          [py "open source"; py "opensource"; py "открытый код"; py "open-source"],
     py "opensource");
    (contains (lower text) (py "бесплатн") || found RE_FREE text
     || same domain (py "itch.io") || endswith domain (py ".itch.io"), py "free");
    (endswith domain (py "steampowered.com") || same domain (py "steampowered.com")
     || contains (lower text) (py "steam"), py "steam");
    (existsb (fun kw => contains (lower text) kw) [py "playstation"]
     || existsb (fun kw => contains text kw) [py "PS4"; py "PS5"], py "playstation");
    (contains (lower text) (py "xbox"), py "xbox");
    (contains (lower text) (py "nintendo") || found RE_SWITCH text, py "nintendo");
    (found RE_AI text || contains (lower text) (py "machine learning")
     || contains (lower text) (py "нейросет")
     || contains (lower text) (py "искусственн"), py "ai");
    (found RE_VR text || found RE_AR text || found RE_XR text
     || contains (lower text) (py "virtual reality")
     || contains (lower text) (py "виртуальн"), py "xr");
    (contains (lower text) (py "shader") || contains (lower text) (py "шейдер"),
     py "shaders");
    (contains (lower text) (py "animation") || contains (lower text) (py "анимаци"),
     py "animation");
    (contains (lower text) (py "procedural")
     || contains (lower text) (py "процедурн"), py "procedural") ].

Definition fired (rules : list (bool * str)) : list str :=
  flat_map (fun rule : bool * str => if rule.1 then [rule.2] else []) rules.

Definition nth_rule (n : nat) (domain text : str) : list str :=
  fired (take 1 (drop n (tag_rules domain text))).

Definition ALL_TAGS : list str :=
  [py "unreal engine"; py "unity"; py "godot"; py "blender"; py "houdini";
   py "substance"; py "maya"; py "zbrush"; py "opensource"; py "free";
   py "steam"; py "playstation"; py "xbox"; py "nintendo"; py "ai"; py "xr";
   py "shaders"; py "animation"; py "procedural"].

(** The resolution order of the specification: exact membership in the
    four label sets, then the suffix rule on the same sets, then the
    fallback. *)
Definition type_resolution (domain : str) : str :=
  if member domain VIDEO_DOMAINS then py "video"
  else if member domain SOCIAL_DOMAINS then py "social"
  else if member domain REPO_DOMAINS then py "repository"
  else if member domain STORE_DOMAINS then py "store"
  else if subdomain_of_any domain VIDEO_DOMAINS then py "video"
  else if subdomain_of_any domain SOCIAL_DOMAINS then py "social"
  else if subdomain_of_any domain REPO_DOMAINS then py "repository"
  else if subdomain_of_any domain STORE_DOMAINS then py "store"
  else py "article".

Definition TYPE_LABELS : list str :=
  [py "video"; py "social"; py "repository"; py "store"; py "article"].

Definition last_or (pv : option N) (pre : str) : option N :=
  match last pre with Some c => Some c | None => pv end.


Fixpoint run (p : N → bool) (hi : nat) (s : str) : nat :=
  match hi, s with
  | S h, c :: s' => if p c then S (run p h s') else O
  | _, _ => O
  end.

Fixpoint best {A} (K : nat → option A) (lo n : nat) : option A :=
  if (n <? lo)%nat then None
  else
    match K n with
    | Some x => Some x
    | None => match n with O => None | S n' => best K lo n' end
    end.

(** A field of [lo] to [hi] digits. *)
Definition digit_field (lo hi : nat) (x : str) : Prop :=
  forallb isdigit x = true ∧ (lo ≤ length x ≤ hi)%nat.

(** The text after the last field: the field was read as far as its
    width allows, so it has [hi] digits or no digit follows. *)
Definition read_out (hi : nat) (x rest : str) : Prop :=
  length x = hi ∨ from_option isdigit false (head rest) = false.

(** Three numeric fields of the given widths around one separator. *)
Definition three_fields (w1 w2 w3 : nat * nat) (sep : N) (s a b c : str) : Prop :=
  ∃ rest, s = a ++ sep :: b ++ sep :: c ++ rest
    ∧ digit_field w1.1 w1.2 a ∧ digit_field w2.1 w2.2 b ∧ digit_field w3.1 w3.2 c
    ∧ read_out w3.2 c rest.

Definition RE3 (w1 w2 w3 : nat * nat) (sep : N) : regex :=
  cat [Grp 1 (times w1.1 w1.2 isdigit); Chr (ch sep);
       Grp 2 (times w2.1 w2.2 isdigit); Chr (ch sep);
       Grp 3 (times w3.1 w3.2 isdigit)].

(** The three accepted shapes, each read off the front of the text:
    year-first with dashes, month-first with slashes, day-first with dots. *)
Definition iso_fields (s ys ms ds : str) : Prop :=
  three_fields (4, 4)%nat (1, 2)%nat (1, 2)%nat 45 s ys ms ds.
Definition us_fields (s ms ds ys : str) : Prop :=
  three_fields (1, 2)%nat (1, 2)%nat (4, 4)%nat 47 s ms ds ys.
Definition eu_fields (s ds ms ys : str) : Prop :=
  three_fields (1, 2)%nat (1, 2)%nat (4, 4)%nat 46 s ds ms ys.

Definition date_shape (s : str) (year month day : N) : Prop :=
  ∃ ys ms ds,
    (iso_fields s ys ms ds ∨ us_fields s ms ds ys ∨ eu_fields s ds ms ys)
    ∧ year = int ys ∧ month = int ms ∧ day = int ds.

(** A string [dd.mm.yyyy] *)
Definition is_date_string (s : str) : bool :=
  match s with
  | [d1; d2; p; m1; m2; q; y1; y2; y3; y4] =>
    isdigit d1 && isdigit d2 && (p =? 46)%N && isdigit m1 && isdigit m2
    && (q =? 46)%N && isdigit y1 && isdigit y2 && isdigit y3 && isdigit y4
  | _ => false
  end.

Definition N_range (lo : N) (count : nat) : list N :=
  (λ k, (lo + N.of_nat k)%N) <$> seq 0 count.

Definition first_success (stages : list (option str)) : option str :=
  foldr (λ stage later, match stage with Some d => Some d | None => later end)
    None stages.

Definition document_stages (html url : str) : list (option str) :=
  [og_date html; meta_date META_NAMES html;
   jsonld_date (findall RE_LD_BLOCK html); time_date (findall RE_TIME html);
   extract_date_from_url url].

(** The headings of a document: the matches of [h3_pattern] in the
    article, with their index. *)
Definition heading_of (html : str) (article_html : str)
    (h3_matches : list rmatch) (i : nat) (mt : rmatch) : Prop :=
  ∃ article_match,
    re_search RE_ARTICLE html = Some article_match
    ∧ article_html = default [] (group article_match 1)
    ∧ h3_matches = finditer h3_pattern article_html
    ∧ h3_matches !! i = Some mt.



(** The example documents below hold no character reference in their
    titles; on such text [html.unescape] returns its argument. *)
Definition no_entities (title : str) : str := title.

Definition doc_fragment_heading : str :=
  py "<article><h3><a href=" ++ dq ++ py "#top" ++ dq
  ++ py ">Back to top</a></h3><p>Navigation.</p></article>".

(** Every image of the mapping is claimed, and no two links share one. *)
Definition claims_sound (st : gset str * gmap str str) : Prop :=
  (∀ link img, st.2 !! link = Some img → img ∈ st.1)
  ∧ (∀ link1 link2 img,
       st.2 !! link1 = Some img → st.2 !! link2 = Some img → link1 = link2).

Definition doc_two_images : str :=
  py "<article><h3><a href=" ++ dq ++ py "https://a.example/one" ++ dq
  ++ py ">One</a></h3><p><img src='https://suvitruf.ru/wp-content/uploads/1.png'></p>"
  ++ py "<h3><a href=" ++ dq ++ py "https://b.example/two" ++ dq
  ++ py ">Two</a></h3><p>No picture here.</p></article>".

(** Keys of the mapping pass the self-link filter *)
Definition keys_filtered (st : gset str * gmap str str) : Prop :=
  ∀ link img, st.2 !! link = Some img → link ≠ [] ∧ is_self_link link = false.

Definition doc_foreign_host : str :=
  py "<article><h3><a href=" ++ dq ++ py "https://example.com/suvitruf.ru-review"
  ++ dq ++ py ">A review</a></h3>"
  ++ py "<p><img src='https://suvitruf.ru/wp-content/uploads/r.png'>Text.</p></article>".

Definition doc_upload_link : str :=
  py "<article><h3><a href=" ++ dq
  ++ py "https://suvitruf.ru/wp-content/uploads/slides.pdf" ++ dq
  ++ py ">Slides</a></h3><p>Talk slides.</p></article>".

(** C2: a heading whose anchor holds no text *)
Definition doc_untitled_heading : str :=
  py "<article><h3><a href=" ++ dq ++ py "https://example.com/tool" ++ dq
  ++ py "><img src='/i/logo.png'></a></h3>"
  ++ py "<p><img src='https://suvitruf.ru/wp-content/uploads/tool.png'></p></article>".




(** No whitespace at either end. *)
Definition trimmed (s : str) : Prop :=
  from_option isspace false (head s) = false
  ∧ from_option isspace false (last s) = false.

(** A date written by [format_date] from plausible numbers. *)
Definition plausible_date (out : str) : Prop :=
  ∃ year month day,
    (1990 ≤ year ≤ 2030 ∧ 1 ≤ month ≤ 12 ∧ 1 ≤ day ≤ 31)%N
    ∧ out = format_date day month year.

(** A domain of the set, or a subdomain of one. *)
Definition known_host (domain : str) (domains : gset str) : Prop :=
  ∃ d, d ∈ domains ∧ (domain = d ∨ ∃ sub, domain = sub ++ py "." ++ d).

Definition bounded (hi : option nat) (n : nat) : Prop :=
  match hi with Some h => (n ≤ h)%nat | None => True end.

(** [derives r w cs cs']: the text [w] has the form of [r], and matching
    it takes the groups [cs] to [cs']. *)
Inductive derives : regex → str → caps → caps → Prop :=
| derives_eps cs : derives Eps [] cs cs
| derives_chr p c cs : p c = true → derives (Chr p) [c] cs cs
| derives_rep g lo hi p w cs :
    forallb p w = true → (lo ≤ length w)%nat → bounded hi (length w) →
    derives (Rep g lo hi p) w cs cs
| derives_cat r1 r2 w1 w2 cs cs1 cs2 :
    derives r1 w1 cs cs1 → derives r2 w2 cs1 cs2 →
    derives (Cat r1 r2) (w1 ++ w2) cs cs2
| derives_alt_l r1 r2 w cs cs' : derives r1 w cs cs' → derives (Alt r1 r2) w cs cs'
| derives_alt_r r1 r2 w cs cs' : derives r2 w cs cs' → derives (Alt r1 r2) w cs cs'
| derives_grp g r w cs cs' : derives r w cs cs' → derives (Grp g r) w cs ((g, w) :: cs')
| derives_bnd cs : derives Bnd [] cs cs.

(** The groups of a pattern, with their bodies. *)
Fixpoint groups_of (r : regex) : list (nat * regex) :=
  match r with
  | Cat r1 r2 | Alt r1 r2 => groups_of r1 ++ groups_of r2
  | Grp g r1 => (g, r1) :: groups_of r1
  | _ => []
  end.

(** A match of the pattern somewhere in the subject. *)
Definition match_in (r : regex) (s : str) (m : rmatch) : Prop :=
  ∃ pre w rest,
    s = pre ++ w ++ rest ∧ derives r w [] (m_caps m)
    ∧ m_start m = length pre ∧ m_end m = (length pre + length w)%nat.


(** Whether every match of the pattern sets the group. *)
Fixpoint sets_group (g : nat) (r : regex) : bool :=
  match r with
  | Cat r1 r2 => sets_group g r1 || sets_group g r2
  | Alt r1 r2 => sets_group g r1 && sets_group g r2
  | Grp g' r1 => (g =? g')%nat || sets_group g r1
  | _ => false
  end.


(** The matches follow one another: each starts at or after [from], the
    end of the one before. *)
Fixpoint in_order (from : nat) (ms : list rmatch) : Prop :=
  match ms with
  | [] => True
  | m :: ms' => (from ≤ m_start m ≤ m_end m)%nat ∧ in_order (m_end m) ms'
  end.

(** The links of the records, in their order. *)
Definition links (data : list record) : list str :=
  omap (λ record : record, record !! py "Link") data.

(** Every record has its link. *)
Definition linked (data : list record) : Prop :=
  Forall (λ record : record, is_Some (record !! py "Link")) data.

(** What [apply_dates] writes into a record. *)
Definition dated (progress : gmap str str) (record : record)
    : gmap str str :=
  <[py "Date" := default DEFAULT_DATE (progress !! default [] (record !! py "Link"))]>
    record.

(** A run: two records with the same link, one that is in the progress
    file, and no network. *)
Definition run_data : list record :=
  [ {[ py "Link" := py "https://a.example/2023/03/15/post" ]};
    {[ py "Link" := py "https://b.example/x" ]};
    {[ py "Link" := py "https://a.example/2023/03/15/post" ]} ].

Definition run_progress : gmap str str :=
  {[ py "https://b.example/x" := py "02.02.2020" ]}.

Definition offline : str → option str := λ url, None.

(** The name with its number. *)
Definition numbered (base_name ext : str) (counter : N) : str :=
  base_name ++ py "_" ++ dec counter ++ ext.

(** The names of the tasks. *)
Definition task_names (tasks : list (str * str * str)) : list str := tasks.*2.

(** The items of the tasks. *)
Definition task_items (tasks : list (str * str * str)) : list (str * str) := tasks.*1.

(** What an article of the listing announces. *)
Definition announcement (unescape : str → str) (url title : str) : Prop :=
  url ≠ [] ∧ (34%N ∉ url)
  ∧ ∃ before after,
      title = unescape (strip (before ++ DIGEST_WORDS ++ after))
      ∧ (60%N ∉ before) ∧ (60%N ∉ after).

Definition doc_listing : str :=
  py "<article id=p1><h1 class=t> <a href=" ++ dq
  ++ py "https://suvitruf.ru/2023/01/01/digest-100/" ++ dq
  ++ py " rel=bookmark>Недельный геймдев: #100 — 1 января, 2023</a></h1>"
  ++ py "<p>text</p></article><article id=p2><h1>Другое</h1></article>".

(** ** Proofs *)

(** The literals stay folded while the proofs simplify. *)
Opaque py.

Lemma append_if (b : bool) (t : str) (tags : list str) :
  (if b then tags ++ [t] else tags) = tags ++ (if b then [t] else []).
Proof. destruct b; [done | by rewrite app_nil_r]. Qed.

Lemma append_elif (a b : bool) (t : str) (tags : list str) :
  (if a then tags ++ [t] else if b then tags ++ [t] else tags)
  = tags ++ (if a || b then [t] else []).
Proof. destruct a, b; simpl; by rewrite ?app_nil_r. Qed.

Lemma rule_forms domain text tags :
  rule_unreal_engine domain text tags = tags ++ nth_rule 0 domain text
  ∧ rule_unity domain text tags = tags ++ nth_rule 1 domain text
  ∧ rule_godot domain text tags = tags ++ nth_rule 2 domain text
  ∧ rule_blender text tags = tags ++ nth_rule 3 domain text
  ∧ rule_houdini text tags = tags ++ nth_rule 4 domain text
  ∧ rule_substance text tags = tags ++ nth_rule 5 domain text
  ∧ rule_maya text tags = tags ++ nth_rule 6 domain text
  ∧ rule_zbrush text tags = tags ++ nth_rule 7 domain text
  ∧ rule_opensource domain text tags = tags ++ nth_rule 8 domain text
  ∧ rule_free domain text tags = tags ++ nth_rule 9 domain text
  ∧ rule_steam domain text tags = tags ++ nth_rule 10 domain text
  ∧ rule_playstation text tags = tags ++ nth_rule 11 domain text
  ∧ rule_xbox text tags = tags ++ nth_rule 12 domain text
  ∧ rule_nintendo text tags = tags ++ nth_rule 13 domain text
  ∧ rule_ai text tags = tags ++ nth_rule 14 domain text
  ∧ rule_xr text tags = tags ++ nth_rule 15 domain text
  ∧ rule_shaders text tags = tags ++ nth_rule 16 domain text
  ∧ rule_animation text tags = tags ++ nth_rule 17 domain text
  ∧ rule_procedural text tags = tags ++ nth_rule 18 domain text.
Proof.
  cbn [nth_rule fired take drop tag_rules flat_map fst snd].
  rewrite !app_nil_r.
  repeat split; first [apply append_elif | apply append_if].
Qed.

Lemma classify_tags_rules domain text :
  classify_tags domain text = fired (tag_rules domain text).
Proof.
  unfold classify_tags. cbv zeta.
  pose proof (rule_forms domain text) as F.
  repeat match type of F with
  | ∀ tags, _ ∧ _ =>
    let H := fresh "H" in
    pose proof (λ tags, proj1 (F tags)) as H; cbv beta in H;
    let F2 := fresh "F" in
    pose proof (λ tags, proj2 (F tags)) as F2; cbv beta in F2;
    clear F; rename F2 into F
  end.
  repeat match goal with H : ∀ tags, _ = _ |- _ => rewrite H; clear H end.
  cbn [nth_rule fired take drop tag_rules flat_map fst snd].
  rewrite ?app_nil_r, <- ?app_assoc. reflexivity.
Qed.

Lemma tag_rules_labels domain text : (tag_rules domain text).*2 = ALL_TAGS.
Proof. reflexivity. Qed.

Lemma fired_sublist rules : fired rules `sublist_of` rules.*2.
Proof.
  induction rules as [|[b t] rules IH]; [done|].
  cbn. destruct b; cbn; [by apply sublist_skip | by apply sublist_cons].
Qed.


(** C9.  The list returned by [classify_tags] holds no label twice: each
    rule appends its own label at most once, and the labels of the rules
    are pairwise distinct. *)
Theorem classify_tags_NoDup domain text : NoDup (classify_tags domain text).
Proof.
  rewrite classify_tags_rules.
  eapply sublist_NoDup; [|apply fired_sublist].
  rewrite tag_rules_labels. apply (bool_decide_unpack _). by vm_compute.
Qed.

(** String method lemmas *)
Lemma startswith_spec (s p : str) :
  startswith s p = true ↔ ∃ post, s = p ++ post.
Proof.
  revert s. induction p as [|a p IH]; intros [|b s]; cbn.
  - split; [by exists [] | done].
  - split; [by exists (b :: s) | done].
  - split; [done | by intros [? [=]]].
  - rewrite andb_true_iff, N.eqb_eq, IH. split.
    + intros [-> [post ->]]. eauto.
    + intros [post [= -> ->]]. eauto.
Qed.

Lemma endswith_spec (s p : str) :
  endswith s p = true ↔ ∃ pre, s = pre ++ p.
Proof.
  unfold endswith. rewrite startswith_spec. split.
  - intros [post E]. exists (reverse post).
    apply (inj reverse). by rewrite E, reverse_app, reverse_involutive.
  - intros [pre ->]. exists (reverse pre). by rewrite reverse_app.
Qed.

Lemma contains_spec (s sub : str) :
  contains s sub = true ↔ ∃ pre post, s = pre ++ sub ++ post.
Proof.
  induction s as [|c s IH]; cbn [contains].
  - rewrite orb_false_r, startswith_spec. split.
    + intros [post E]. by exists [], post.
    + intros [pre [post E]]. destruct pre; [eauto | done].
  - rewrite orb_true_iff, startswith_spec, IH. split.
    + intros [[post E]|[pre [post ->]]]; [by exists [], post | by exists (c :: pre), post].
    + intros [[|c' pre] [post E]]; [left; eauto | right].
      injection E as -> ->. eauto.
Qed.

Lemma member_spec domain domains : member domain domains = true ↔ domain ∈ domains.
Proof. unfold member. by rewrite bool_decide_eq_true. Qed.

Lemma subdomain_of_any_spec domain domains :
  subdomain_of_any domain domains = true
  ↔ ∃ d pre, d ∈ domains ∧ domain = pre ++ py "." ++ d.
Proof.
  unfold subdomain_of_any. rewrite existsb_exists. split.
  - intros [d [Hd E]]. apply endswith_spec in E as [pre ->].
    exists d, pre. split; [|done]. apply elem_of_elements, list_elem_of_In, Hd.
  - intros [d [pre [Hd ->]]]. exists d. split.
    + by apply list_elem_of_In, elem_of_elements.
    + apply endswith_spec. eauto.
Qed.

Lemma article_domain_no_suffix domain :
  member domain ARTICLE_DOMAINS = true →
  subdomain_of_any domain VIDEO_DOMAINS = false
  ∧ subdomain_of_any domain SOCIAL_DOMAINS = false
  ∧ subdomain_of_any domain REPO_DOMAINS = false
  ∧ subdomain_of_any domain STORE_DOMAINS = false.
Proof.
  rewrite member_spec. unfold ARTICLE_DOMAINS.
  rewrite elem_of_list_to_set. rewrite !elem_of_cons, elem_of_nil.
  intros H.
  repeat (destruct H as [->|H]; [by vm_compute|]). done.
Qed.

(** C6.  [classify_type] follows the resolution order of the
    specification (exact membership in the video, social, repository and
    store sets, then the suffix rule on the same sets in the same order,
    then [article]); its extra test on the article domains changes
    nothing.  The result is one of the five labels, never empty;
    [youtube.com] is a video and [sub.github.com] a repository, by the
    suffix rule. *)
Theorem classify_type_resolution domain :
  classify_type domain = type_resolution domain
  ∧ classify_type domain ∈ TYPE_LABELS
  ∧ classify_type domain ≠ []
  ∧ classify_type (py "youtube.com") = py "video"
  ∧ member (py "sub.github.com") REPO_DOMAINS = false
  ∧ endswith (py "sub.github.com") (py "." ++ py "github.com") = true
  ∧ classify_type (py "sub.github.com") = py "repository".
Proof.
  assert (E : classify_type domain = type_resolution domain).
  { unfold classify_type, type_resolution.
    destruct (member domain ARTICLE_DOMAINS) eqn:A; [|done].
    apply article_domain_no_suffix in A as (-> & -> & -> & ->). done. }
  split; [done|]. rewrite E. unfold type_resolution, TYPE_LABELS.
  split; [|split; [|by vm_compute]].
  - repeat case_match; apply (bool_decide_unpack _); by vm_compute.
  - repeat case_match; by vm_compute.
Qed.

(** The matcher on literals and the search loop *)

Lemma last_or_cons pv c pre : last_or pv (c :: pre) = last_or (Some c) pre.
Proof.
  unfold last_or. destruct pre as [|d pre]; [done|].
  rewrite last_cons. by destruct (last (d :: pre)) eqn:E; [|by apply last_None in E].
Qed.









(** Greedy bounded repetition: the longest run first, then shorter ones *)

Lemma best_shift {A} (K : nat → option A) lo r :
  match best (K ∘ S) (pred lo) r with
  | Some x => Some x
  | None => match lo with O => K O | S _ => None end
  end = best K lo (S r).
Proof.
  induction r as [|r IH].
  - cbn. destruct lo as [|[|lo]]; cbn; by repeat case_match.
  - change (best K lo (S (S r))) with
      (if (S (S r) <? lo)%nat then None
       else match K (S (S r)) with Some x => Some x | None => best K lo (S r) end).
    rewrite <- IH.
    change (best (K ∘ S) (pred lo) (S r)) with
      (if (S r <? pred lo)%nat then None
       else match K (S (S r)) with
            | Some x => Some x
            | None => best (K ∘ S) (pred lo) r
            end).
    destruct lo as [|lo]; [cbn; by repeat case_match|].
    cbn [pred]. change (S (S r) <? S lo)%nat with (S r <? lo)%nat.
    destruct (S r <? lo)%nat eqn:E; by repeat case_match.
Qed.

Lemma rep_greedy_best {A} p lo hi i pv s (k : nat → option N → str → option A) :
  rep true p lo (Some hi) i pv s k
  = best (λ n, k (i + n)%nat (last_or pv (take n s)) (drop n s)) lo (run p hi s).
Proof.
  revert lo hi i pv. induction s as [|c s IH]; intros lo hi i pv.
  - assert (run p hi [] = O) as -> by (by destruct hi).
    cbn. rewrite Nat.add_0_r. destruct lo; cbn; by repeat case_match.
  - cbn [rep]. destruct (p c && hi_open (Some hi)) eqn:E.
    + apply andb_true_iff in E as [Hp Hh]. destruct hi as [|h]; [done|].
      cbn [run]. rewrite Hp. cbn [fmap option_fmap option_map pred].
      rewrite IH, <- best_shift. cbn [take drop].
      assert (∀ n, k (S i + n)%nat (last_or (Some c) (take n s)) (drop n s)
                   = ((λ n, k (i + n)%nat (last_or pv (take n (c :: s))) (drop n (c :: s))) ∘ S) n) as F.
      { intros n. cbn. by rewrite last_or_cons, Nat.add_succ_r. }
      assert (∀ K1 K2 : nat → option A, (∀ n, K1 n = K2 n) → ∀ l r, best K1 l r = best K2 l r) as X.
      { intros K1 K2 HK l r. induction r as [|r IHr]; cbn; rewrite HK; [done|]. by rewrite IHr. }
      rewrite (X _ _ F). cbn. by rewrite Nat.add_0_r.
    + assert (run p hi (c :: s) = O) as ->.
      { destruct hi; [done|]. cbn. apply andb_false_iff in E as [->|E]; done. }
      cbn. rewrite Nat.add_0_r. destruct lo; cbn; by repeat case_match.
Qed.

Lemma run_spec p hi s :
  (run p hi s ≤ hi)%nat ∧ (run p hi s ≤ length s)%nat
  ∧ forallb p (take (run p hi s) s) = true
  ∧ ((run p hi s < hi)%nat → from_option p false (head (drop (run p hi s) s)) = false).
Proof.
  revert s. induction hi as [|h IH]; intros s.
  - cbn. repeat split; [lia|lia|lia].
  - destruct s as [|c s]; cbn; [repeat split; lia || done|].
    destruct (p c) eqn:E; cbn.
    + destruct (IH s) as (? & ? & ? & ?). rewrite E. repeat split; [lia|lia|done|].
      intros. apply H2. lia.
    + repeat split; [lia|lia|done].
Qed.

Lemma run_app p hi ds rest :
  forallb p ds = true → (length ds ≤ hi)%nat →
  (length ds = hi ∨ from_option p false (head rest) = false) →
  run p hi (ds ++ rest) = length ds.
Proof.
  revert hi. induction ds as [|d ds IH]; intros hi Hp Hl Hr; cbn in *.
  - destruct hi; [done|]. destruct Hr as [?|Hr]; [lia|].
    destruct rest; cbn in *; [done|]. by rewrite Hr.
  - apply andb_true_iff in Hp as [Hd Hp]. destruct hi as [|h]; [lia|].
    cbn. rewrite Hd, IH; [done|done|lia|]. destruct Hr; [left; lia|by right].
Qed.

Lemma best_Some {A} (K : nat → option A) lo r x :
  best K lo r = Some x → ∃ n, (lo ≤ n ≤ r)%nat ∧ K n = Some x.
Proof.
  induction r as [|r IH]; cbn [best].
  - destruct (0 <? lo)%nat eqn:E; [done|]. apply Nat.ltb_ge in E.
    destruct (K O) eqn:E0; [|done]. intros [= ->]. exists O. split; [lia|done].
  - destruct (S r <? lo)%nat eqn:E; [done|]. apply Nat.ltb_ge in E.
    destruct (K (S r)) eqn:E0.
    + intros [= ->]. exists (S r). split; [lia|done].
    + intros H. destruct (IH H) as (n & ? & ?). exists n. split; [lia|done].
Qed.

Lemma best_first {A} (K : nat → option A) lo r x :
  (lo ≤ r)%nat → K r = Some x → best K lo r = Some x.
Proof.
  intros Hl HK. destruct r; cbn [best]; rewrite HK;
    by rewrite (proj2 (Nat.ltb_ge _ _)) by lia.
Qed.

Lemma best_total {A} (K : nat → option A) lo r :
  (∀ n, is_Some (K n)) → best K lo r = if (r <? lo)%nat then None else K r.
Proof.
  intros HK. destruct r as [|r]; cbn [best].
  - destruct (0 <? lo)%nat; [done|]. by destruct (HK O) as [? ->].
  - destruct (S r <? lo)%nat; [done|]. by destruct (HK (S r)) as [? ->].
Qed.

Lemma forallb_take (p : N → bool) n (s : str) :
  forallb p s = true → forallb p (take n s) = true.
Proof.
  revert n. induction s as [|c s IH]; intros [|n]; cbn; try done.
  intros [-> ?]%andb_true_iff. cbn. by apply IH.
Qed.

Lemma exec_field_sep {A} g lo hi sep R i pv s cs
    (k : nat → option N → str → caps → option A) x :
  isdigit sep = false →
  exec (Cat (Grp g (times lo hi isdigit)) (Cat (Chr (ch sep)) R)) i pv s cs k = Some x
  ↔ ∃ ds rest, s = ds ++ sep :: rest ∧ digit_field lo hi ds
      ∧ exec R (S (i + length ds)) (Some sep) rest ((g, ds) :: cs) k = Some x.
Proof.
  intros Hsep. unfold times. cbn [exec]. rewrite rep_greedy_best.
  destruct (run_spec isdigit hi s) as (Hhi & Hlen & Hdig & _).
  split.
  - intros (n & Hn & HK)%best_Some.
    destruct (drop n s) as [|c rest] eqn:D; [done|].
    unfold ch in HK. destruct (sep =? c)%N eqn:E; [|done].
    apply N.eqb_eq in E as <-.
    exists (take n s), rest.
    assert (length (take n s) = n) as L by (rewrite length_take; lia).
    split; [by rewrite <- D, take_drop|].
    split.
    + split; [|lia].
      replace (take n s) with (take n (take (run isdigit hi s) s))
        by (rewrite take_take; f_equal; lia).
      by apply forallb_take.
    + rewrite L. by replace (i + n - i)%nat with n in HK by lia.
  - intros (ds & rest & -> & [Hd Hl] & HR).
    rewrite run_app; [|done|lia|by right; cbn].
    apply best_first; [lia|].
    rewrite drop_app_length. unfold ch. rewrite N.eqb_refl.
    replace (i + length ds - i)%nat with (length ds) by lia.
    by rewrite take_app_length.
Qed.

Lemma exec_field_last {A} g lo hi i pv s cs
    (k : nat → option N → str → caps → option A) x :
  (∀ a b c d, is_Some (k a b c d)) →
  exec (Cat (Grp g (times lo hi isdigit)) Eps) i pv s cs k = Some x
  ↔ ∃ ds rest, s = ds ++ rest ∧ digit_field lo hi ds ∧ read_out hi ds rest
      ∧ k (i + length ds)%nat (last_or pv ds) rest ((g, ds) :: cs) = Some x.
Proof.
  intros Hk. unfold times. cbn [exec]. rewrite rep_greedy_best.
  rewrite best_total by (intros; apply Hk).
  destruct (run_spec isdigit hi s) as (Hhi & Hlen & Hdig & Hnext).
  split.
  - destruct (_ <? lo)%nat eqn:E; [done|]. apply Nat.ltb_ge in E.
    intros HK. exists (take (run isdigit hi s) s), (drop (run isdigit hi s) s).
    assert (length (take (run isdigit hi s) s) = run isdigit hi s) as L
      by (rewrite length_take; lia).
    split; [by rewrite take_drop|]. split; [split; [done|lia]|].
    split.
    + unfold read_out. rewrite L.
      destruct (decide (run isdigit hi s = hi)); [by left|right]. apply Hnext. lia.
    + rewrite L. by replace (i + run isdigit hi s - i)%nat with (run isdigit hi s) in HK by lia.
  - intros (ds & rest & -> & [Hd Hl] & Hr & HK).
    rewrite run_app; [|done|lia|done].
    rewrite (proj2 (Nat.ltb_ge _ _)) by lia.
    rewrite drop_app_length, take_app_length.
    replace (i + length ds - i)%nat with (length ds) by lia.
    by rewrite take_app_length.
Qed.

Lemma RE3_match_at w1 w2 w3 sep s e cs :
  isdigit sep = false →
  match_at (RE3 w1 w2 w3 sep) 0 None s = Some (e, cs)
  ↔ ∃ a b c, three_fields w1 w2 w3 sep s a b c
      ∧ e = (S (S (length a + length b)) + length c)%nat
      ∧ cs = [(3, c); (2, b); (1, a)]%nat.
Proof.
  intros Hsep. unfold match_at, RE3. cbn [cat foldr]. split.
  - intros X.
    apply exec_field_sep in X as (a & s1 & -> & Ha & X); [|done].
    apply exec_field_sep in X as (b & s2 & -> & Hb & X); [|done].
    apply exec_field_last in X as (c & rest & -> & Hc & Hr & X); [|by intros; eexists].
    injection X as <- <-. exists a, b, c.
    split; [by exists rest|]. split; [cbn; lia|done].
  - intros (a & b & c & (rest & -> & Ha & Hb & Hc & Hr) & -> & ->).
    apply exec_field_sep; [done|]. exists a, (b ++ sep :: c ++ rest).
    split; [done|]. split; [done|].
    apply exec_field_sep; [done|]. exists b, (c ++ rest).
    split; [done|]. split; [done|].
    apply exec_field_last; [by intros; eexists|]. exists c, rest.
    split; [done|]. split; [done|]. split; [done|]. f_equal; try (f_equal; cbn; lia).
Qed.

Lemma RE3_match w1 w2 w3 sep s m :
  isdigit sep = false →
  re_match (RE3 w1 w2 w3 sep) s = Some m
  ↔ ∃ a b c, three_fields w1 w2 w3 sep s a b c
      ∧ m = Match 0 (S (S (length a + length b)) + length c)
              [(3, c); (2, b); (1, a)]%nat.
Proof.
  intros Hsep. unfold re_match.
  destruct (match_at _ 0 None s) as [[e cs]|] eqn:X.
  - apply RE3_match_at in X as (a & b & c & T & -> & ->); [|done]. split.
    + intros [= <-]. by exists a, b, c.
    + intros (a' & b' & c' & T' & ->).
      assert (match_at (RE3 w1 w2 w3 sep) 0 None s
              = Some ((S (S (length a' + length b')) + length c')%nat,
                      [(3, c'); (2, b'); (1, a')]%nat)) as Y
        by (apply RE3_match_at; [done|]; by exists a', b', c').
      assert (match_at (RE3 w1 w2 w3 sep) 0 None s
              = Some ((S (S (length a + length b)) + length c)%nat,
                      [(3, c); (2, b); (1, a)]%nat)) as Z
        by (apply RE3_match_at; [done|]; by exists a, b, c).
      rewrite Y in Z. by injection Z as _ -> -> ->.
  - split; [done|]. intros (a & b & c & T & ->).
    assert (match_at (RE3 w1 w2 w3 sep) 0 None s
            = Some ((S (S (length a + length b)) + length c)%nat,
                    [(3, c); (2, b); (1, a)]%nat)) as Y
      by (apply RE3_match_at; [done|]; by exists a, b, c).
    congruence.
Qed.

(** The fields of a match determine the fields of any reading. *)
Lemma three_fields_unique w1 w2 w3 sep s a b c a' b' c' :
  three_fields w1 w2 w3 sep s a b c → three_fields w1 w2 w3 sep s a' b' c' →
  isdigit sep = false →
  a = a' ∧ b = b' ∧ c = c'.
Proof.
  intros T T' Hsep.
  assert (match_at (RE3 w1 w2 w3 sep) 0 None s
          = Some ((S (S (length a + length b)) + length c)%nat,
                  [(3, c); (2, b); (1, a)]%nat)) as Y
    by (apply RE3_match_at; [done|]; by exists a, b, c).
  assert (match_at (RE3 w1 w2 w3 sep) 0 None s
          = Some ((S (S (length a' + length b')) + length c')%nat,
                  [(3, c'); (2, b'); (1, a')]%nat)) as Z
    by (apply RE3_match_at; [done|]; by exists a', b', c').
  rewrite Y in Z. by injection Z as _ -> -> ->.
Qed.

Lemma elem_of_N_range lo count n :
  (lo ≤ n)%N → (n < lo + N.of_nat count)%N → n ∈ N_range lo count.
Proof.
  intros H1 H2. unfold N_range. apply list_elem_of_fmap.
  exists (N.to_nat (n - lo)). split; [lia|].
  apply elem_of_seq. lia.
Qed.

Lemma format_date_ok year month day :
  plausible year month day = true →
  is_date_string (format_date day month year) = true.
Proof.
  unfold plausible. rewrite !andb_true_iff, !N.leb_le.
  intros [[[[[Y1 Y2] M1] M2] D1] D2].
  assert (∀ n lo count, n ∈ N_range lo count → ∀ P : N → bool,
            forallb P (N_range lo count) = true → P n = true) as F.
  { intros n lo count Hn P HP. rewrite forallb_forall in HP.
    apply HP. by apply list_elem_of_In. }
  pose proof (F day 1%N 31%nat (elem_of_N_range 1 31 day D1 ltac:(lia))
    (λ d, bool_decide (length (dec02 d) = 2%nat) && forallb isdigit (dec02 d))
    ltac:(by vm_compute)) as Hd.
  pose proof (F month 1%N 12%nat (elem_of_N_range 1 12 month M1 ltac:(lia))
    (λ d, bool_decide (length (dec02 d) = 2%nat) && forallb isdigit (dec02 d))
    ltac:(by vm_compute)) as Hm.
  pose proof (F year 1990%N 41%nat (elem_of_N_range 1990 41 year Y1 ltac:(lia))
    (λ d, bool_decide (length (dec d) = 4%nat) && forallb isdigit (dec d))
    ltac:(by vm_compute)) as Hy.
  cbv beta in *. unfold format_date.
  apply andb_true_iff in Hd as [Ld Hd]. apply bool_decide_eq_true in Ld.
  apply andb_true_iff in Hm as [Lm Hm]. apply bool_decide_eq_true in Lm.
  apply andb_true_iff in Hy as [Ly Hy]. apply bool_decide_eq_true in Ly.
  destruct (dec02 day) as [|d1 [|d2 [|]]]; try done.
  destruct (dec02 month) as [|m1 [|m2 [|]]]; try done.
  destruct (dec year) as [|y1 [|y2 [|y3 [|y4 [|]]]]]; try done.
  cbn [forallb] in Hd, Hm, Hy. cbn [app is_date_string].
  repeat (apply andb_true_iff in Hd as [? Hd]).
  repeat (apply andb_true_iff in Hm as [? Hm]).
  repeat (apply andb_true_iff in Hy as [? Hy]).
  repeat match goal with H : isdigit _ = true |- _ => rewrite H; clear H end.
  done.
Qed.

Lemma digit_prefix_unique a a' sep sep' r r' :
  forallb isdigit a = true → forallb isdigit a' = true →
  isdigit sep = false → isdigit sep' = false →
  a ++ sep :: r = a' ++ sep' :: r' → a = a' ∧ sep = sep' ∧ r = r'.
Proof.
  revert a'. induction a as [|c a IH]; intros [|c' a'] Ha Ha' Hs Hs' E;
    cbn [app forallb] in *.
  - by simplify_eq.
  - simplify_eq. apply andb_true_iff in Ha' as [? _]. congruence.
  - simplify_eq. apply andb_true_iff in Ha as [? _]. congruence.
  - apply andb_true_iff in Ha as [_ Ha]. apply andb_true_iff in Ha' as [_ Ha'].
    injection E as ? E. destruct (IH a' Ha Ha' Hs Hs' E) as (? & ? & ?).
    by simplify_eq.
Qed.

Lemma three_fields_sep w1 w2 w3 sep v1 v2 v3 sep' s a b c a' b' c' :
  isdigit sep = false → isdigit sep' = false →
  three_fields w1 w2 w3 sep s a b c → three_fields v1 v2 v3 sep' s a' b' c' →
  sep = sep'.
Proof.
  intros Hs Hs' (r & -> & [Ha _] & _) (r' & E & [Ha' _] & _).
  by destruct (digit_prefix_unique _ _ _ _ _ _ Ha Ha' Hs Hs' E) as (_ & ? & _).
Qed.

Lemma three_fields_nonempty w1 w2 w3 sep s a b c :
  three_fields w1 w2 w3 sep s a b c → s ≠ [].
Proof. intros (r & -> & _). by destruct a. Qed.

Lemma strip_nil : strip [] = [].
Proof. reflexivity. Qed.

Lemma int_group_caps e a b c :
  int_group (Match 0 e [(3, c); (2, b); (1, a)]%nat) 1 = int a
  ∧ int_group (Match 0 e [(3, c); (2, b); (1, a)]%nat) 2 = int b
  ∧ int_group (Match 0 e [(3, c); (2, b); (1, a)]%nat) 3 = int c.
Proof. done. Qed.

Lemma RE_ISO_eq : RE_ISO = RE3 (4, 4)%nat (1, 2)%nat (1, 2)%nat 45.
Proof. reflexivity. Qed.
Lemma RE_US_eq : RE_US = RE3 (1, 2)%nat (1, 2)%nat (4, 4)%nat 47.
Proof. reflexivity. Qed.
Lemma RE_EU_eq : RE_EU = RE3 (1, 2)%nat (1, 2)%nat (4, 4)%nat 46.
Proof. reflexivity. Qed.

Ltac clash T1 T2 :=
  let H := fresh in
  pose proof (λ h h', three_fields_sep _ _ _ _ _ _ _ _ _ _ _ _ _ _ _ h h' T1 T2) as H;
  specialize (H eq_refl eq_refl); discriminate H.

Lemma parse_date_string_Some raw out :
  parse_date_string raw = Some out
  ↔ ∃ year month day,
      date_shape (strip raw) year month day
      ∧ plausible year month day = true
      ∧ out = format_date day month year.
Proof.
  unfold parse_date_string.
  destruct (negb (truthy raw) || negb (truthy (strip raw))) eqn:T.
  { split; [done|]. intros (y & m & d & (ys & ms & ds & H & _) & _). exfalso.
    assert (strip raw ≠ []) as NE
      by (destruct H as [H|[H|H]]; by eapply three_fields_nonempty).
    apply orb_true_iff in T as [T|T].
    - destruct raw; [by rewrite strip_nil in NE|done].
    - by destruct (strip raw). }
  clear T. cbv zeta. set (s := strip raw). rewrite RE_ISO_eq, RE_US_eq, RE_EU_eq.
  destruct (re_match (RE3 (4, 4)%nat (1, 2)%nat (1, 2)%nat 45) s) as [m1|] eqn:M1.
  - apply RE3_match in M1 as (ys & ms & ds & T1 & ->); [|done].
    destruct (int_group_caps (S (S (length ys + length ms)) + length ds) ys ms ds) as (-> & -> & ->).
    assert (re_match (RE3 (1, 2)%nat (1, 2)%nat (4, 4)%nat 47) s = None) as ->.
    { destruct (re_match _ s) eqn:M2; [|done].
      apply RE3_match in M2 as (? & ? & ? & T2 & _); [|done].
      clash T1 T2. }
    assert (re_match (RE3 (1, 2)%nat (1, 2)%nat (4, 4)%nat 46) s = None) as ->.
    { destruct (re_match _ s) eqn:M2; [|done].
      apply RE3_match in M2 as (? & ? & ? & T2 & _); [|done].
      clash T1 T2. }
    assert (∀ y m d, date_shape s y m d → y = int ys ∧ m = int ms ∧ d = int ds) as U.
    { intros y m d (ys' & ms' & ds' & [H|[H|H]] & -> & -> & ->).
      - by destruct (three_fields_unique _ _ _ _ _ _ _ _ _ _ _ T1 H eq_refl) as (-> & -> & ->).
      - clash T1 H.
      - clash T1 H. }
    destruct (plausible (int ys) (int ms) (int ds)) eqn:P.
    + split.
      * intros [= <-]. exists (int ys), (int ms), (int ds). split; [|done].
        exists ys, ms, ds. by split; [left|].
      * intros (y & m & d & H & _ & ->). by destruct (U _ _ _ H) as (-> & -> & ->).
    + split; [done|]. intros (y & m & d & H & P' & _).
      destruct (U _ _ _ H) as (-> & -> & ->). congruence.
  - destruct (re_match (RE3 (1, 2)%nat (1, 2)%nat (4, 4)%nat 47) s) as [m2|] eqn:M2.
    + apply RE3_match in M2 as (ms & ds & ys & T2 & ->); [|done].
      destruct (int_group_caps (S (S (length ms + length ds)) + length ys) ms ds ys) as (-> & -> & ->).
      assert (re_match (RE3 (1, 2)%nat (1, 2)%nat (4, 4)%nat 46) s = None) as ->.
      { destruct (re_match (RE3 (1, 2)%nat (1, 2)%nat (4, 4)%nat 46) s) eqn:M3; [|done].
        apply RE3_match in M3 as (? & ? & ? & T3 & _); [|done].
        clash T2 T3. }
      assert (∀ y m d, date_shape s y m d → y = int ys ∧ m = int ms ∧ d = int ds) as U.
      { intros y m d (ys' & ms' & ds' & [H|[H|H]] & -> & -> & ->).
        - clash T2 H.
        - by destruct (three_fields_unique _ _ _ _ _ _ _ _ _ _ _ T2 H eq_refl) as (-> & -> & ->).
        - clash T2 H. }
      destruct (plausible (int ys) (int ms) (int ds)) eqn:P.
      * split.
        -- intros [= <-]. exists (int ys), (int ms), (int ds). split; [|done].
           exists ys, ms, ds. by split; [right; left|].
        -- intros (y & m & d & H & _ & ->). by destruct (U _ _ _ H) as (-> & -> & ->).
      * split; [done|]. intros (y & m & d & H & P' & _).
        destruct (U _ _ _ H) as (-> & -> & ->). congruence.
    + destruct (re_match (RE3 (1, 2)%nat (1, 2)%nat (4, 4)%nat 46) s) as [m3|] eqn:M3.
      * apply RE3_match in M3 as (ds & ms & ys & T3 & ->); [|done].
        destruct (int_group_caps (S (S (length ds + length ms)) + length ys) ds ms ys) as (-> & -> & ->).
        assert (∀ y m d, date_shape s y m d → y = int ys ∧ m = int ms ∧ d = int ds) as U.
        { intros y m d (ys' & ms' & ds' & [H|[H|H]] & -> & -> & ->).
          - clash T3 H.
          - clash T3 H.
          - by destruct (three_fields_unique _ _ _ _ _ _ _ _ _ _ _ T3 H eq_refl) as (-> & -> & ->). }
        destruct (plausible (int ys) (int ms) (int ds)) eqn:P.
        -- split.
           ++ intros [= <-]. exists (int ys), (int ms), (int ds). split; [|done].
              exists ys, ms, ds. by split; [right; right|].
           ++ intros (y & m & d & H & _ & ->). by destruct (U _ _ _ H) as (-> & -> & ->).
        -- split; [done|]. intros (y & m & d & H & P' & _).
           destruct (U _ _ _ H) as (-> & -> & ->). congruence.
      * split; [done|].
        intros (y & m & d & (ys & ms & ds & [H|[H|H]] & _) & _).
        -- assert (is_Some (re_match (RE3 (4, 4)%nat (1, 2)%nat (1, 2)%nat 45) s)) as [? ?];
             [|congruence]. eexists. apply RE3_match; [done|]. by exists ys, ms, ds.
        -- assert (is_Some (re_match (RE3 (1, 2)%nat (1, 2)%nat (4, 4)%nat 47) s)) as [? ?];
             [|congruence]. eexists. apply RE3_match; [done|]. by exists ms, ds, ys.
        -- assert (is_Some (re_match (RE3 (1, 2)%nat (1, 2)%nat (4, 4)%nat 46) s)) as [? ?];
             [|congruence]. eexists. apply RE3_match; [done|]. by exists ds, ms, ys.
Qed.

Lemma plausible_spec year month day :
  plausible year month day = true
  ↔ (1990 ≤ year ≤ 2030 ∧ 1 ≤ month ≤ 12 ∧ 1 ≤ day ≤ 31)%N.
Proof. unfold plausible. rewrite !andb_true_iff, !N.leb_le. tauto. Qed.

Lemma parse_date_string_date raw out :
  parse_date_string raw = Some out → is_date_string out = true.
Proof.
  intros (y & m & d & _ & P & ->)%parse_date_string_Some. by apply format_date_ok.
Qed.



(** The waterfall *)

Lemma first_success_app l1 l2 :
  first_success (l1 ++ l2)
  = match first_success l1 with Some d => Some d | None => first_success l2 end.
Proof. induction l1 as [|[d|] l1 IH]; cbn [app first_success foldr]; [done|done|apply IH]. Qed.

Lemma extract_date_from_html_stages html url :
  extract_date_from_html html url = first_success (document_stages html url).
Proof.
  unfold extract_date_from_html, document_stages, first_success. cbn [foldr].
  by repeat case_match.
Qed.

Lemma extract_date_from_url_date url out :
  extract_date_from_url url = Some out → is_date_string out = true.
Proof.
  unfold extract_date_from_url. intros H.
  repeat case_match; simplify_eq; by apply format_date_ok.
Qed.

Lemma parse_group_1_or_2_date m out :
  parse_group_1_or_2 m = Some out → is_date_string out = true.
Proof.
  unfold parse_group_1_or_2. intros H.
  repeat case_match; simplify_eq; by eapply parse_date_string_date.
Qed.

Lemma meta_date_date names html out :
  meta_date names html = Some out → is_date_string out = true.
Proof.
  induction names as [|name names IH]; cbn [meta_date]; [done|]. intros H.
  repeat case_match; simplify_eq; (by eapply parse_group_1_or_2_date) || by apply IH.
Qed.

Lemma jsonld_date_date blocks out :
  jsonld_date blocks = Some out → is_date_string out = true.
Proof.
  induction blocks as [|block blocks IH]; cbn [jsonld_date]; [done|]. intros H.
  repeat case_match; simplify_eq; (by eapply parse_date_string_date) || by apply IH.
Qed.

Lemma time_date_date raws out :
  time_date raws = Some out → is_date_string out = true.
Proof.
  induction raws as [|raw raws IH]; cbn [time_date]; [done|]. intros H.
  repeat case_match; simplify_eq; (by eapply parse_date_string_date) || by apply IH.
Qed.

Lemma extract_date_from_html_date html url out :
  extract_date_from_html html url = Some out → is_date_string out = true.
Proof.
  unfold extract_date_from_html, og_date. intros H.
  repeat case_match; simplify_eq;
    eauto using parse_group_1_or_2_date, meta_date_date, jsonld_date_date,
      time_date_date, extract_date_from_url_date.
Qed.

(** C4.  [process_single_url] always returns the URL with a date string
    of the shape [dd.mm.yyyy]: the first success of the five document
    stages, tried in their order, when the document was fetched and is not
    empty; otherwise, or when every stage fails, the date of the URL
    pattern alone; and the sentinel [01.01.1970] when that fails too. *)
Theorem process_single_url_total (fetch_url : str → option str) (url : str) :
  ∃ date,
    process_single_url fetch_url url = (url, date)
    ∧ is_date_string date = true
    ∧ date = default DEFAULT_DATE
               (first_success
                  (match fetch_url url with
                   | Some html =>
                     if truthy html then document_stages html url else []
                   | None => []
                   end ++ [extract_date_from_url url])).
Proof.
  unfold process_single_url.
  destruct (fetch_url url) as [[|c html]|] eqn:F; cbn [truthy app first_success foldr].
  - destruct (extract_date_from_url url) as [d|] eqn:U; eexists; split; try done.
    split; [by eapply extract_date_from_url_date|done].
  - rewrite first_success_app. cbn [first_success foldr].
    rewrite <- extract_date_from_html_stages.
    destruct (extract_date_from_html (c :: html) url) as [d|] eqn:H.
    + eexists; split; [done|]. split; [by eapply extract_date_from_html_date|done].
    + destruct (extract_date_from_url url) as [d|] eqn:U; eexists; split; try done.
      split; [by eapply extract_date_from_url_date|done].
  - destruct (extract_date_from_url url) as [d|] eqn:U; eexists; split; try done.
    split; [by eapply extract_date_from_url_date|done].
Qed.

(** The digest parser *)

Lemma digest_loop_omap unescape a h todo acc :
  digest_loop unescape a h todo acc
  = acc ++ omap (λ im : nat * rmatch, digest_entry unescape a h im.1 im.2) todo.
Proof.
  revert acc. induction todo as [|[i mt] todo IH]; intros acc; cbn.
  - by rewrite app_nil_r.
  - destruct (digest_entry unescape a h i mt) as [r|]; rewrite IH; [|done].
    by rewrite <- app_assoc.
Qed.

Lemma elem_of_enumerate {A} (l : list A) i x :
  (i, x) ∈ enumerate l ↔ l !! i = Some x.
Proof.
  unfold enumerate. rewrite list_elem_of_lookup. split.
  - intros [j Hj]. rewrite list_lookup_imap in Hj.
    destruct (l !! j) eqn:E; cbn in Hj; [|done]. by simplify_eq.
  - intros H. exists i. by rewrite list_lookup_imap, H.
Qed.

Lemma elem_of_extract_resources unescape html r :
  r ∈ extract_resources_from_digest unescape html
  ↔ ∃ a h i mt, heading_of html a h i mt ∧ digest_entry unescape a h i mt = Some r.
Proof.
  unfold extract_resources_from_digest, heading_of.
  destruct (re_search RE_ARTICLE html) as [am|] eqn:E.
  - cbv zeta. rewrite digest_loop_omap, app_nil_l, list_elem_of_omap. split.
    + intros ([i mt] & Hin & Hr). apply elem_of_enumerate in Hin.
      eexists _, _, i, mt. split; [|exact Hr]. by exists am.
    + intros (a & h & i & mt & (am' & [= <-] & -> & -> & Hl) & Hr).
      exists (i, mt). split; [by apply elem_of_enumerate|done].
  - split; [by intros ?%elem_of_nil|]. by intros (? & ? & ? & ? & (? & [=] & _) & _).
Qed.

Lemma first_resource_link_Some block_links link :
  first_resource_link block_links = Some link →
  link ∈ block_links
  ∧ contains link (py "wp-content/uploads") = false
  ∧ startswith link (py "#") = false
  ∧ startswith link (py "http") = true.
Proof.
  induction block_links as [|c l IH]; cbn [first_resource_link]; [done|].
  destruct (contains c (py "wp-content/uploads")) eqn:E1.
  { intros H. destruct (IH H) as (? & ?). split; [by right|done]. }
  destruct (startswith c (py "#")) eqn:E2.
  { intros H. destruct (IH H) as (? & ?). split; [by right|done]. }
  destruct (startswith c (py "http")) eqn:E3; cbn.
  - intros [= <-]. split; [by left|done].
  - intros H. destruct (IH H) as (? & ?). split; [by right|done].
Qed.

(** What a record says of the heading it was made from. *)
Lemma digest_entry_Some unescape a h i mt r :
  digest_entry unescape a h i mt = Some r →
  Link r ≠ [] ∧ is_self_link (Link r) = false ∧ Title r ≠ []
  ∧ Description r = describe (block_of a h i mt)
  ∧ ((∃ l, re_search RE_LINK_IN_H3 (strip (default [] (group mt 1))) = Some l
          ∧ Link r = strip (default [] (group l 1))
          ∧ Title r = unescape (strip (re_sub RE_TAG [] (default [] (group l 2)))))
     ∨ (first_resource_link (findall RE_BLOCK_LINK (block_of a h i mt)) = Some (Link r))).
Proof.
  unfold digest_entry. cbv zeta.
  destruct (re_search RE_LINK_IN_H3 (strip (default [] (group mt 1)))) as [l|] eqn:L.
  - destruct (unescape _) as [|t0 title] eqn:T; [done|]. cbn [truthy negb].
    destruct (strip (default [] (group l 1))) as [|c0 link0] eqn:K; cbn [falsy].
    + destruct (first_resource_link _) as [[|c link]|] eqn:F; [done| |done].
      destruct (is_self_link (c :: link)) eqn:S; [done|]. intros [= <-]. cbn.
      repeat split; try done. by right.
    + destruct (is_self_link (c0 :: link0)) eqn:S; [done|]. intros [= <-]. cbn.
      repeat split; try done. left. exists l. by rewrite K.
  - destruct (unescape _) as [|t0 title] eqn:T; [done|]. cbn [truthy negb falsy].
    destruct (first_resource_link _) as [[|c link]|] eqn:F; [done| |done].
    destruct (is_self_link (c :: link)) eqn:S; [done|]. intros [= <-]. cbn.
    repeat split; try done. by right.
Qed.




(** The image heuristic *)

Lemma first_unclaimed_Some claimed imgs img :
  first_unclaimed claimed imgs = Some img → img ∉ claimed.
Proof.
  induction imgs as [|m imgs IH]; cbn [first_unclaimed]; [done|].
  case_bool_decide as E; [|done]. by intros [= <-].
Qed.

Lemma find_image_unclaimed a h claimed i mt img :
  find_image a h claimed i mt = Some img → img ∉ claimed.
Proof.
  unfold find_image. cbv zeta.
  destruct (falsy _); apply first_unclaimed_Some.
Qed.


(** What a turn of the loop does to the claim set and to the mapping *)
Lemma image_step_spec a h claimed image_map i mt :
  image_step a h (claimed, image_map) i mt = (claimed, image_map)
  ∨ ∃ link img,
      resource_link_of a h i mt = Some link ∧ link ≠ []
      ∧ is_self_link link = false
      ∧ find_image a h claimed i mt = Some img ∧ img ≠ []
      ∧ image_step a h (claimed, image_map) i mt
        = ({[img]} ∪ claimed, <[link := img]> image_map).
Proof.
  unfold image_step.
  destruct (resource_link_of a h i mt) as [[|c l]|] eqn:R; [by left| |by left].
  destruct (is_self_link (c :: l)) eqn:S; [by left|].
  destruct (find_image a h claimed i mt) as [[|d u]|] eqn:F; [by left| |by left].
  right. by exists (c :: l), (d :: u).
Qed.

Lemma image_loop_invariant (P : gset str * gmap str str → Prop) a h todo st :
  P st →
  (∀ claimed image_map i mt,
     P (claimed, image_map) → P (image_step a h (claimed, image_map) i mt)) →
  P (image_loop a h todo st).
Proof.
  intros H0 Hstep. revert st H0.
  induction todo as [|[i mt] todo IH]; intros [claimed image_map] H0; cbn; [done|].
  apply IH. by apply Hstep.
Qed.

Lemma extract_image_map_invariant (P : gset str * gmap str str → Prop) html :
  P (∅, ∅) →
  (∀ a h claimed image_map i mt,
     P (claimed, image_map) → P (image_step a h (claimed, image_map) i mt)) →
  ∃ claimed, P (claimed, extract_image_map html).
Proof.
  intros H0 Hstep. unfold extract_image_map.
  destruct (re_search RE_ARTICLE html) as [am|]; [|by exists ∅].
  cbv zeta. destruct (finditer h3_pattern _) as [|m0 h] eqn:E; [by exists ∅|].
  rewrite <- E.
  pose proof (image_loop_invariant P (default [] (group am 1))
                (finditer h3_pattern (default [] (group am 1)))
                (enumerate (finditer h3_pattern (default [] (group am 1))))
                (∅, ∅) H0 (Hstep _ _)) as H.
  destruct (image_loop _ _ _ _) as [claimed image_map]. by exists claimed.
Qed.

Lemma image_step_claims_sound a h claimed image_map i mt :
  claims_sound (claimed, image_map) →
  claims_sound (image_step a h (claimed, image_map) i mt).
Proof.
  intros [Hc Hi].
  destruct (image_step_spec a h claimed image_map i mt)
    as [->|(link & img & _ & _ & _ & F & _ & ->)]; [done|].
  apply find_image_unclaimed in F. split; cbn.
  - intros k v. rewrite lookup_insert. case_decide.
    + intros [= <-]. set_solver.
    + intros Hk. apply Hc in Hk. set_solver.
  - intros k1 k2 v. rewrite !lookup_insert. repeat case_decide; subst.
    + done.
    + intros [= <-] Hk. by apply Hc in Hk.
    + intros Hk [= <-]. by apply Hc in Hk.
    + apply Hi.
Qed.

(** C5.  In the mapping of [extract_image_map] no image is the value of
    two links.  The image found for a heading is never one already
    claimed, in the after-zone as in the before-zone, and a turn of the
    loop never removes a claim. *)
Theorem image_map_injective html :
  (∀ link1 link2 img,
     extract_image_map html !! link1 = Some img →
     extract_image_map html !! link2 = Some img → link1 = link2)
  ∧ (∀ a h claimed i mt img,
       find_image a h claimed i mt = Some img → img ∉ claimed)
  ∧ (∀ a h claimed image_map i mt,
       claimed ⊆ (image_step a h (claimed, image_map) i mt).1).
Proof.
  split; [|split].
  - destruct (extract_image_map_invariant claims_sound html) as [claimed [_ Hi]].
    + split; cbn [fst snd]; intros ?*; by rewrite lookup_empty.
    + intros. by apply image_step_claims_sound.
    + exact Hi.
  - apply find_image_unclaimed.
  - intros a h claimed image_map i mt.
    destruct (image_step_spec a h claimed image_map i mt)
      as [->|(link & img & _ & _ & _ & _ & _ & ->)]; set_solver.
Qed.

Lemma image_map_injective_witness :
  extract_image_map doc_two_images !! py "https://a.example/one"
    = Some (py "https://suvitruf.ru/wp-content/uploads/1.png")
  ∧ py "https://a.example/one" = py "https://a.example/one".
Proof.
  split; [by vm_compute|].
  apply (proj1 (image_map_injective doc_two_images) _ _
           (py "https://suvitruf.ru/wp-content/uploads/1.png")); by vm_compute.
Defined.

Lemma image_step_keys_filtered a h claimed image_map i mt :
  keys_filtered (claimed, image_map) →
  keys_filtered (image_step a h (claimed, image_map) i mt).
Proof.
  intros Hk.
  destruct (image_step_spec a h claimed image_map i mt)
    as [->|(link & img & _ & NE & S & _ & _ & ->)]; [done|].
  intros k v. cbn. rewrite lookup_insert. case_decide; subst; [done|]. apply Hk.
Qed.

Lemma is_self_link_spec link :
  is_self_link link = true
  ↔ (∃ pre post, link = pre ++ py "suvitruf.ru" ++ post)
    ∧ ¬ ∃ pre post, link = pre ++ py "wp-content" ++ post.
Proof.
  unfold is_self_link. rewrite andb_true_iff, negb_true_iff, contains_spec.
  by rewrite <- not_true_iff_false, contains_spec.
Qed.

(** C10.  The self-link filter of the parser and of the image heuristic
    is a test on substrings of the whole link: no record and no key of
    the image mapping holds [suvitruf.ru] without holding [wp-content],
    and a heading whose link is such a self-link gives no record.  So a
    link to another host whose path mentions [suvitruf.ru] is dropped by
    both. *)
Theorem self_link_filter_is_substring_test unescape html :
  (∀ r, r ∈ extract_resources_from_digest unescape html →
     contains (Link r) (py "suvitruf.ru") = true →
     contains (Link r) (py "wp-content") = true)
  ∧ (∀ a h i mt link,
       is_self_link link = true →
       ¬ ∃ title description,
           digest_entry unescape a h i mt = Some (Resource link title description))
  ∧ (∀ link img, extract_image_map html !! link = Some img →
       contains link (py "suvitruf.ru") = true →
       contains link (py "wp-content") = true)
  ∧ contains (py "https://example.com/suvitruf.ru-review") (py "suvitruf.ru") = true
  ∧ contains (py "https://example.com/suvitruf.ru-review") (py "wp-content") = false
  ∧ extract_resources_from_digest no_entities doc_foreign_host = []
  ∧ extract_image_map doc_foreign_host = ∅.
Proof.
  assert (∀ l, is_self_link l = false →
            contains l (py "suvitruf.ru") = true → contains l (py "wp-content") = true) as X.
  { unfold is_self_link. intros l H E. rewrite E in H. cbn in H.
    by destruct (contains l (py "wp-content")). }
  split; [|split; [|split; [|by vm_compute]]].
  - intros r (a & h & i & mt & _ & E)%elem_of_extract_resources.
    apply digest_entry_Some in E as (_ & S & _). by apply X.
  - intros a h i mt link S (t & d & E).
    apply digest_entry_Some in E as (_ & S' & _). cbn in S'. congruence.
  - intros link img H.
    destruct (extract_image_map_invariant keys_filtered html) as [claimed K].
    + intros ?*. cbn [fst snd]. by rewrite lookup_empty.
    + intros. by apply image_step_keys_filtered.
    + destruct (K link img H) as [_ S]. by apply X.
Qed.

Lemma self_link_filter_is_substring_test_witness :
  contains (py "https://suvitruf.ru/wp-content/uploads/slides.pdf")
    (py "wp-content") = true.
Proof.
  apply (proj1 (self_link_filter_is_substring_test no_entities doc_upload_link)
    (Resource (py "https://suvitruf.ru/wp-content/uploads/slides.pdf")
       (py "Slides") (py "Talk slides."))).
  - replace (extract_resources_from_digest no_entities doc_upload_link)
      with [Resource (py "https://suvitruf.ru/wp-content/uploads/slides.pdf")
              (py "Slides") (py "Talk slides.")] by (by vm_compute).
    by apply list_elem_of_singleton.
  - by vm_compute.
Defined.

(** C2.  On a heading whose anchor holds an image and no text the
    parser gives no record, its title being empty, while
    [extract_image_map] maps the link of that heading to the image that
    follows it: the key is the link of no record of the parser. *)
Theorem image_for_dropped_heading :
  extract_resources_from_digest no_entities doc_untitled_heading = []
  ∧ extract_image_map doc_untitled_heading !! py "https://example.com/tool"
    = Some (py "https://suvitruf.ru/wp-content/uploads/tool.png").
Proof. split; by vm_compute. Qed.

(** Unbounded greedy repetition and the collapse of whitespace *)









Lemma lstrip_spec s :
  ∃ pre, s = pre ++ lstrip s ∧ from_option isspace false (head (lstrip s)) = false.
Proof.
  induction s as [|c s (pre & E & H)]; cbn [lstrip]; [by exists []|].
  destruct (isspace c) eqn:Hc.
  - exists (c :: pre). split; [by cbn; f_equal|done].
  - exists []. split; [done|]. by cbn.
Qed.

Lemma rstrip_spec s :
  ∃ post, s = rstrip s ++ post ∧ from_option isspace false (last (rstrip s)) = false.
Proof.
  unfold rstrip. destruct (lstrip_spec (reverse s)) as (pre & E & H).
  exists (reverse pre). split.
  - apply (inj reverse). by rewrite reverse_app, !reverse_involutive.
  - by rewrite last_reverse.
Qed.

Lemma strip_spec s :
  (∃ pre post, s = pre ++ strip s ++ post) ∧ trimmed (strip s).
Proof.
  unfold strip. destruct (lstrip_spec s) as (pre & E & Hh).
  destruct (rstrip_spec (lstrip s)) as (post & E' & Hl).
  split.
  - exists pre, post. by rewrite <- E', <- E.
  - split; [|done]. rewrite E' in Hh. by destruct (rstrip (lstrip s)).
Qed.






(** ** More on the dates *)

Lemma lstrip_trimmed s :
  from_option isspace false (head s) = false → lstrip s = s.
Proof. destruct s as [|c s]; [done|]. cbn. by intros ->. Qed.

Lemma strip_idemp s : strip (strip s) = strip s.
Proof.
  destruct (strip_spec s) as [_ [Hh Hl]]. unfold strip at 1.
  rewrite (lstrip_trimmed _ Hh). unfold rstrip.
  rewrite lstrip_trimmed; [by rewrite reverse_involutive|].
  by rewrite head_reverse.
Qed.

(** X1: surrounding whitespace does not count. *)
Theorem parse_date_string_strip raw :
  parse_date_string raw = parse_date_string (strip raw).
Proof.
  unfold parse_date_string. rewrite strip_idemp.
  destruct raw as [|c raw]; [done|]. cbn [truthy negb orb].
  destruct (strip (c :: raw)) as [|c' s']; [done|]. done.
Qed.

Lemma format_date_fixed_point year month day :
  plausible year month day = true →
  parse_date_string (format_date day month year)
  = Some (format_date day month year).
Proof.
  unfold plausible. rewrite !andb_true_iff, !N.leb_le.
  intros [[[[[Y1 Y2] M1] M2] D1] D2].
  assert (forallb (λ y, forallb (λ m, forallb (λ d,
            bool_decide (parse_date_string (format_date d m y)
                         = Some (format_date d m y)))
            (N_range 1 31)) (N_range 1 12)) (N_range 1990 41) = true) as F
    by (by vm_compute).
  rewrite forallb_forall in F.
  specialize (F year (proj1 (list_elem_of_In _ _)
    (elem_of_N_range 1990 41 year Y1 ltac:(lia)))).
  rewrite forallb_forall in F.
  specialize (F month (proj1 (list_elem_of_In _ _)
    (elem_of_N_range 1 12 month M1 ltac:(lia)))).
  rewrite forallb_forall in F.
  specialize (F day (proj1 (list_elem_of_In _ _)
    (elem_of_N_range 1 31 day D1 ltac:(lia)))).
  by apply bool_decide_eq_true in F.
Qed.

Lemma plausible_date_fixed_point out :
  plausible_date out → parse_date_string out = Some out.
Proof.
  intros (y & m & d & P & ->). by apply format_date_fixed_point, plausible_spec.
Qed.

Lemma parse_date_string_plausible raw out :
  parse_date_string raw = Some out → plausible_date out.
Proof.
  intros (y & m & d & _ & P & ->)%parse_date_string_Some.
  exists y, m, d. by rewrite <- plausible_spec.
Qed.

(** X2: a date that was normalized once normalizes to itself. *)
Theorem parse_date_string_idempotent raw out :
  parse_date_string raw = Some out → parse_date_string out = Some out.
Proof. intros H. by apply plausible_date_fixed_point, (parse_date_string_plausible raw). Qed.

Lemma parse_date_string_idempotent_witness :
  parse_date_string (py "15.03.2023") = Some (py "15.03.2023").
Proof.
  apply (parse_date_string_idempotent (py "2023-03-15T10:00:00+00:00")).
  by vm_compute.
Defined.

Lemma extract_date_from_url_plausible url out :
  extract_date_from_url url = Some out → plausible_date out.
Proof.
  unfold extract_date_from_url. intros H.
  repeat case_match; simplify_eq;
    eexists _, _, _; (split; [by apply plausible_spec|done]).
Qed.

Lemma parse_group_1_or_2_plausible m out :
  parse_group_1_or_2 m = Some out → plausible_date out.
Proof.
  unfold parse_group_1_or_2. intros H.
  repeat case_match; simplify_eq; by eapply parse_date_string_plausible.
Qed.

Lemma meta_date_plausible names html out :
  meta_date names html = Some out → plausible_date out.
Proof.
  induction names as [|name names IH]; cbn [meta_date]; [done|]. intros H.
  repeat case_match; simplify_eq; (by eapply parse_group_1_or_2_plausible) || by apply IH.
Qed.

Lemma jsonld_date_plausible blocks out :
  jsonld_date blocks = Some out → plausible_date out.
Proof.
  induction blocks as [|block blocks IH]; cbn [jsonld_date]; [done|]. intros H.
  repeat case_match; simplify_eq; (by eapply parse_date_string_plausible) || by apply IH.
Qed.

Lemma time_date_plausible raws out :
  time_date raws = Some out → plausible_date out.
Proof.
  induction raws as [|raw raws IH]; cbn [time_date]; [done|]. intros H.
  repeat case_match; simplify_eq; (by eapply parse_date_string_plausible) || by apply IH.
Qed.

Lemma extract_date_from_html_plausible html url out :
  extract_date_from_html html url = Some out → plausible_date out.
Proof.
  unfold extract_date_from_html, og_date. intros H.
  repeat case_match; simplify_eq;
    eauto using parse_group_1_or_2_plausible, meta_date_plausible,
      jsonld_date_plausible, time_date_plausible, extract_date_from_url_plausible.
Qed.

Lemma sentinel_not_plausible : ¬ plausible_date DEFAULT_DATE.
Proof.
  intros H%plausible_date_fixed_point. by vm_compute in H.
Qed.

(** X3: what the extraction returns is a plausible date, never the
    sentinel, and it normalizes to itself. *)
Theorem extracted_date_plausible html url out :
  extract_date_from_html html url = Some out ∨ extract_date_from_url url = Some out →
  plausible_date out ∧ out ≠ DEFAULT_DATE ∧ parse_date_string out = Some out.
Proof.
  intros H.
  assert (plausible_date out) as P
    by (destruct H; eauto using extract_date_from_html_plausible,
          extract_date_from_url_plausible).
  split; [done|]. split; [|by apply plausible_date_fixed_point].
  intros ->. by apply sentinel_not_plausible.
Qed.

Lemma extracted_date_plausible_witness :
  plausible_date (py "04.07.2022") ∧ py "04.07.2022" ≠ DEFAULT_DATE
  ∧ parse_date_string (py "04.07.2022") = Some (py "04.07.2022").
Proof.
  apply (extracted_date_plausible [] (py "https://example.com/2022/7/4/post")).
  right. by vm_compute.
Defined.

(** X4: the sentinel comes out exactly when nothing was extracted. *)
Theorem process_single_url_sentinel (fetch_url : str → option str) (url : str) :
  (process_single_url fetch_url url).2 = DEFAULT_DATE
  ↔ extract_date_from_url url = None
    ∧ ∀ html, fetch_url url = Some html → html ≠ [] →
        extract_date_from_html html url = None.
Proof.
  unfold process_single_url.
  destruct (fetch_url url) as [[|c html]|] eqn:F.
  - destruct (extract_date_from_url url) as [d|] eqn:U; cbn [snd].
    + split; [|by intros [? _]]. intros ->.
      by destruct (sentinel_not_plausible (extract_date_from_url_plausible _ _ U)).
    + split; [|done]. intros _. split; [done|]. by intros ? [= <-].
  - destruct (extract_date_from_html (c :: html) url) as [d|] eqn:H; cbn [snd].
    + split.
      * intros ->.
        by destruct (sentinel_not_plausible (extract_date_from_html_plausible _ _ _ H)).
      * intros [_ X]. by rewrite (X (c :: html) eq_refl) in H.
    + destruct (extract_date_from_url url) as [d|] eqn:U; cbn [snd].
      * split; [|by intros [? _]]. intros ->.
        by destruct (sentinel_not_plausible (extract_date_from_url_plausible _ _ U)).
      * split; [|done]. intros _. split; [done|]. by intros ? [= <-].
  - destruct (extract_date_from_url url) as [d|] eqn:U; cbn [snd].
    + split; [|by intros [? _]]. intros ->.
      by destruct (sentinel_not_plausible (extract_date_from_url_plausible _ _ U)).
    + split; [|done]. intros _. split; [done|]. done.
Qed.

Lemma process_single_url_sentinel_witness :
  extract_date_from_url (py "https://example.com/about") = None
  ∧ ∀ html, (λ _ : str, @None str) (py "https://example.com/about") = Some html →
      html ≠ [] → extract_date_from_html html (py "https://example.com/about") = None.
Proof.
  apply (proj1 (process_single_url_sentinel (λ _, None) (py "https://example.com/about"))).
  by vm_compute.
Defined.

(** ** More on the classifier *)

(** X5: the tags come out in the order of the rules, from their labels. *)
Theorem classify_tags_in_declared_order domain text :
  classify_tags domain text `sublist_of` ALL_TAGS.
Proof.
  rewrite classify_tags_rules, <- (tag_rules_labels domain text).
  apply fired_sublist.
Qed.

Lemma known_host_spec domain domains :
  known_host domain domains
  ↔ member domain domains = true ∨ subdomain_of_any domain domains = true.
Proof.
  rewrite member_spec, subdomain_of_any_spec. unfold known_host. split.
  - intros (d & Hd & [->|[sub ->]]); [by left|right]. by exists d, sub.
  - intros [H|(d & sub & Hd & ->)].
    + exists domain. split; [done|by left].
    + exists d. split; [done|right]. by exists sub.
Qed.

Lemma classify_type_in_order domain :
  classify_type domain = type_resolution domain.
Proof.
  unfold classify_type, type_resolution.
  destruct (member domain ARTICLE_DOMAINS) eqn:A; [|done].
  apply article_domain_no_suffix in A as (-> & -> & -> & ->). done.
Qed.

(** X6: [article] is the answer exactly for the hosts no set knows, and
    every other label names a host its set knows. *)
Theorem classify_type_labels domain :
  (classify_type domain = py "article"
   ↔ ¬ (known_host domain VIDEO_DOMAINS ∨ known_host domain SOCIAL_DOMAINS
        ∨ known_host domain REPO_DOMAINS ∨ known_host domain STORE_DOMAINS))
  ∧ (classify_type domain = py "video" → known_host domain VIDEO_DOMAINS)
  ∧ (classify_type domain = py "social" → known_host domain SOCIAL_DOMAINS)
  ∧ (classify_type domain = py "repository" → known_host domain REPO_DOMAINS)
  ∧ (classify_type domain = py "store" → known_host domain STORE_DOMAINS).
Proof.
  rewrite classify_type_in_order.
  rewrite !known_host_spec. unfold type_resolution.
  destruct (member domain VIDEO_DOMAINS), (member domain SOCIAL_DOMAINS),
    (member domain REPO_DOMAINS), (member domain STORE_DOMAINS),
    (subdomain_of_any domain VIDEO_DOMAINS),
    (subdomain_of_any domain SOCIAL_DOMAINS),
    (subdomain_of_any domain REPO_DOMAINS),
    (subdomain_of_any domain STORE_DOMAINS).
  all: repeat split.
  all: solve [ intros; reflexivity
             | intros H; vm_compute in H; discriminate H
             | intros; intuition discriminate
             | intros H; exfalso; apply H; intuition auto ].
Qed.

Lemma classify_type_labels_witness :
  known_host (py "clips.twitch.tv") VIDEO_DOMAINS.
Proof.
  apply (proj1 (proj2 (classify_type_labels (py "clips.twitch.tv")))).
  by vm_compute.
Defined.

(** ** What a match says of the matched text *)

Lemma last_or_app pv w1 w2 : last_or (last_or pv w1) w2 = last_or pv (w1 ++ w2).
Proof.
  revert pv. induction w1 as [|c w1 IH]; intros pv; [done|].
  cbn [app]. by rewrite !last_or_cons, IH.
Qed.

Lemma rep_sound {A} g p lo hi i pv s (k : nat → option N → str → option A) x :
  rep g p lo hi i pv s k = Some x →
  ∃ w rest, s = w ++ rest ∧ forallb p w = true ∧ (lo ≤ length w)%nat
    ∧ bounded hi (length w)
    ∧ k (i + length w)%nat (last_or pv w) rest = Some x.
Proof.
  assert (∀ lo' hi' i' pv' s',
    match lo' with O => k i' pv' s' | S _ => None end = Some x →
    ∃ w rest, s' = w ++ rest ∧ forallb p w = true ∧ (lo' ≤ length w)%nat
      ∧ bounded hi' (length w)
      ∧ k (i' + length w)%nat (last_or pv' w) rest = Some x) as Stop.
  { intros lo' hi' i' pv' s' H. destruct lo'; [|done]. exists [], s'.
    cbn. rewrite Nat.add_0_r. repeat split; try done. destruct hi'; cbn; lia. }
  assert (∀ lo' hi' i' pv' c s',
    (∀ lo hi i pv, rep g p lo hi i pv s' k = Some x →
      ∃ w rest, s' = w ++ rest ∧ forallb p w = true ∧ (lo ≤ length w)%nat
        ∧ bounded hi (length w)
        ∧ k (i + length w)%nat (last_or pv w) rest = Some x) →
    (if p c && hi_open hi'
     then rep g p (pred lo') (pred <$> hi') (S i') (Some c) s' k
     else None) = Some x →
    ∃ w rest, c :: s' = w ++ rest ∧ forallb p w = true ∧ (lo' ≤ length w)%nat
      ∧ bounded hi' (length w)
      ∧ k (i' + length w)%nat (last_or pv' w) rest = Some x) as More.
  { intros lo' hi' i' pv' c s' IH H.
    destruct (p c && hi_open hi') eqn:E; [|done].
    apply andb_true_iff in E as [Hp Ho].
    apply IH in H as (w & rest & -> & Hw & Hl & Hb & Hk).
    exists (c :: w), rest. cbn [length forallb app]. rewrite Hp.
    split; [done|]. split; [done|]. split; [lia|]. split.
    - destruct hi' as [[|h]|]; cbn in *; try done; lia.
    - by rewrite last_or_cons, Nat.add_succ_r. }
  revert lo hi i pv. induction s as [|c s IH]; intros lo hi i pv; destruct g; cbn [rep].
  - apply Stop.
  - destruct (match lo with O => k i pv [] | S _ => None end) eqn:E; [|done].
    intros [= ->]. by eapply Stop.
  - destruct (if p c && hi_open hi then _ else None) eqn:E.
    + intros [= ->]. by eapply More.
    + apply Stop.
  - destruct (match lo with O => k i pv (c :: s) | S _ => None end) eqn:E.
    + intros [= ->]. by eapply Stop.
    + by apply More.
Qed.

Lemma exec_sound {A} r i pv s cs (k : nat → option N → str → caps → option A) x :
  exec r i pv s cs k = Some x →
  ∃ w rest cs', s = w ++ rest ∧ derives r w cs cs'
    ∧ k (i + length w)%nat (last_or pv w) rest cs' = Some x.
Proof.
  revert i pv s cs k. induction r as [|p|g lo hi p|r1 IH1 r2 IH2|r1 IH1 r2 IH2|g r IH|];
    intros i pv s cs k; cbn [exec].
  - intros H. exists [], s, cs. cbn. rewrite Nat.add_0_r.
    split; [done|]. split; [constructor|done].
  - destruct s as [|c s]; [done|]. destruct (p c) eqn:Hp; [|done]. intros H.
    exists [c], s, cs. split; [done|]. split; [by constructor|].
    cbn. by rewrite Nat.add_1_r.
  - intros (w & rest & -> & Hw & Hl & Hb & Hk)%rep_sound.
    exists w, rest, cs. split; [done|]. split; [by constructor|done].
  - intros (w1 & rest1 & cs1 & -> & D1 & H)%IH1.
    apply IH2 in H as (w2 & rest & cs2 & -> & D2 & H).
    exists (w1 ++ w2), rest, cs2. split; [by rewrite app_assoc|].
    split; [by econstructor|].
    by rewrite length_app, Nat.add_assoc, <- last_or_app.
  - destruct (exec r1 i pv s cs k) eqn:E.
    + intros [= ->]. apply IH1 in E as (w & rest & cs' & -> & D & H).
      exists w, rest, cs'. split; [done|]. split; [by apply derives_alt_l|done].
    + intros (w & rest & cs' & -> & D & H)%IH2.
      exists w, rest, cs'. split; [done|]. split; [by apply derives_alt_r|done].
  - intros (w & rest & cs' & -> & D & H)%IH.
    exists w, rest, ((g, w) :: cs'). split; [done|]. split; [by constructor|].
    replace (i + length w - i)%nat with (length w) in H by lia.
    by rewrite take_app_length in H.
  - destruct (at_boundary pv s); [|done]. intros H. exists [], s, cs.
    cbn. rewrite Nat.add_0_r. split; [done|]. split; [constructor|done].
Qed.

Lemma match_at_sound r i pv s e cs :
  match_at r i pv s = Some (e, cs) →
  ∃ w rest, s = w ++ rest ∧ derives r w [] cs ∧ e = (i + length w)%nat.
Proof.
  unfold match_at. intros (w & rest & cs' & -> & D & [= <- <-])%exec_sound.
  by exists w, rest.
Qed.

Lemma search_from_sound r i pv s m :
  search_from r i pv s = Some m →
  ∃ pre w rest, s = pre ++ w ++ rest ∧ derives r w [] (m_caps m)
    ∧ m_start m = (i + length pre)%nat
    ∧ m_end m = (i + length pre + length w)%nat.
Proof.
  revert i pv. induction s as [|c s IH]; intros i pv; cbn [search_from].
  - destruct (match_at r i pv []) as [[e cs]|] eqn:E; [|done]. intros [= <-].
    apply match_at_sound in E as (w & rest & E & D & ->).
    exists [], w, rest. cbn. by rewrite Nat.add_0_r.
  - destruct (match_at r i pv (c :: s)) as [[e cs]|] eqn:E.
    + intros [= <-]. apply match_at_sound in E as (w & rest & E & D & ->).
      exists [], w, rest. cbn. by rewrite Nat.add_0_r.
    + intros (pre & w & rest & -> & D & Hs & He)%IH.
      exists (c :: pre), w, rest. cbn [length app]. rewrite Hs, He.
      repeat split; try done; lia.
Qed.

Lemma re_search_sound r s m : re_search r s = Some m → match_in r s m.
Proof.
  intros (pre & w & rest & ? & ? & ? & ?)%search_from_sound. by exists pre, w, rest.
Qed.

Lemma finditer_from_sound r skip i pv s m :
  m ∈ finditer_from r skip i pv s →
  ∃ pre w rest, s = pre ++ w ++ rest ∧ derives r w [] (m_caps m)
    ∧ m_start m = (i + length pre)%nat
    ∧ m_end m = (i + length pre + length w)%nat
    ∧ (skip ≤ length pre)%nat.
Proof.
  revert skip i pv. induction s as [|c s IH]; intros skip i pv.
  - destruct skip; cbn [finditer_from]; [|by intros ?%elem_of_nil].
    destruct (match_at r i pv []) as [[e cs]|] eqn:E; [|by intros ?%elem_of_nil].
    intros ->%list_elem_of_singleton.
    apply match_at_sound in E as (w & rest & E & D & ->).
    exists [], w, rest. cbn. rewrite Nat.add_0_r. repeat split; try done.
  - assert (∀ n, m ∈ finditer_from r n (S i) (Some c) s →
      ∃ pre w rest, c :: s = pre ++ w ++ rest ∧ derives r w [] (m_caps m)
        ∧ m_start m = (i + length pre)%nat
        ∧ m_end m = (i + length pre + length w)%nat
        ∧ (S n ≤ length pre)%nat) as Next.
    { intros n (pre & w & rest & -> & D & Hs & He & Hk)%IH.
      exists (c :: pre), w, rest. cbn [length app]. rewrite Hs, He.
      repeat split; try done; lia. }
    destruct skip; cbn [finditer_from].
    + destruct (match_at r i pv (c :: s)) as [[e cs]|] eqn:E.
      * intros [->|H]%elem_of_cons.
        -- apply match_at_sound in E as (w & rest & E & D & ->).
           exists [], w, rest. cbn. rewrite Nat.add_0_r. repeat split; try done.
        -- apply Next in H as (pre & w & rest & ? & ? & ? & ? & ?).
           exists pre, w, rest. repeat split; try done; lia.
      * intros H. apply Next in H as (pre & w & rest & ? & ? & ? & ? & ?).
        exists pre, w, rest. repeat split; try done; lia.
    + intros H. by apply Next in H.
Qed.

Lemma finditer_sound r s m : m ∈ finditer r s → match_in r s m.
Proof.
  intros (pre & w & rest & ? & ? & ? & ? & _)%finditer_from_sound.
  by exists pre, w, rest.
Qed.

(** The text of a group has the form of the group's body. *)
Lemma derives_group r w cs cs' g u :
  derives r w cs cs' → lookup_cap g cs' = Some u →
  lookup_cap g cs = Some u
  ∨ ∃ body c1 c2, (g, body) ∈ groups_of r ∧ derives body u c1 c2.
Proof.
  intros D. revert u. induction D as
    [cs|p c cs Hp|g' lo hi p w cs Hw Hl Hb|r1 r2 w1 w2 cs cs1 cs2 D1 IH1 D2 IH2
    |r1 r2 w cs cs' D IH|r1 r2 w cs cs' D IH|g' r w cs cs' D IH|cs]; intros u H;
    cbn [groups_of]; try by left.
  - destruct (IH2 _ H) as [H1|(body & c1 & c2 & Hin & Hd)].
    + destruct (IH1 _ H1) as [?|(body & c1 & c2 & Hin & Hd)]; [by left|right].
      exists body, c1, c2. rewrite elem_of_app. auto.
    + right. exists body, c1, c2. rewrite elem_of_app. auto.
  - destruct (IH _ H) as [?|(body & c1 & c2 & Hin & Hd)]; [by left|right].
    exists body, c1, c2. rewrite elem_of_app. auto.
  - destruct (IH _ H) as [?|(body & c1 & c2 & Hin & Hd)]; [by left|right].
    exists body, c1, c2. rewrite elem_of_app. auto.
  - cbn [lookup_cap] in H. destruct (g =? g')%nat eqn:E.
    + apply Nat.eqb_eq in E as ->. injection H as ->. right.
      exists r, cs, cs'. split; [by left|done].
    + destruct (IH _ H) as [?|(body & c1 & c2 & Hin & Hd)]; [by left|right].
      exists body, c1, c2. split; [by right|done].
Qed.

Lemma group_derives r s m g u :
  match_in r s m → group m g = Some u →
  ∃ body c1 c2, (g, body) ∈ groups_of r ∧ derives body u c1 c2.
Proof.
  intros (pre & w & rest & _ & D & _) H.
  by destruct (derives_group _ _ _ _ _ _ D H) as [?|?].
Qed.

Lemma derives_rep_inv g lo hi p w cs cs' :
  derives (Rep g lo hi p) w cs cs' →
  forallb p w = true ∧ (lo ≤ length w)%nat ∧ bounded hi (length w).
Proof. by inversion 1. Qed.

Lemma derives_length_lit t w cs cs' :
  derives (lit t) w cs cs' → w = t.
Proof.
  revert w cs cs'. induction t as [|c t IH]; intros w cs cs'.
  - by inversion 1.
  - change (lit (c :: t)) with (Cat (Chr (ch c)) (lit t)). inversion 1 as
      [| | |r1 r2 w1 w2 c0 c1 c2 D1 D2| | | |]; subst.
    inversion D1; subst. apply IH in D2 as ->. cbn. f_equal.
    unfold ch in *. symmetry. by apply N.eqb_eq.
Qed.


(** ** More on the digest parser and the image heuristic *)

Lemma none_of_dq u : forallb (none_of dq) u = true → 34%N ∉ u.
Proof.
  induction u as [|c u IH]; cbn [forallb]; [by intros _ ?%elem_of_nil|].
  intros [Hc Hu]%andb_true_iff [<-|H]%elem_of_cons; [by vm_compute in Hc|by apply IH].
Qed.

Lemma strip_infix s : ∃ pre post, s = pre ++ strip s ++ post.
Proof. apply strip_spec. Qed.

Lemma not_elem_of_strip (c : N) s : c ∉ s → c ∉ strip s.
Proof.
  destruct (strip_infix s) as (pre & post & E). intros H Hc. apply H.
  rewrite E, !elem_of_app. auto.
Qed.

Lemma groups_of_RE_LINK_IN_H3 :
  groups_of RE_LINK_IN_H3 = [(1%nat, plus (none_of dq)); (2%nat, lazy_star any)].
Proof. by vm_compute. Qed.


Lemma groups_of_RE_BLOCK_LINK :
  groups_of RE_BLOCK_LINK = [(1%nat, plus (none_of dq))].
Proof. by vm_compute. Qed.

Lemma anchor_target_unquoted r s m :
  (∀ body, (1%nat, body) ∈ groups_of r → body = plus (none_of dq)) →
  match_in r s m → 34%N ∉ default [] (group m 1).
Proof.
  intros G M. destruct (group m 1) as [u|] eqn:E; [|by intros ?%elem_of_nil].
  destruct (group_derives _ _ _ _ _ M E) as (body & c1 & c2 & Hin & D).
  rewrite (G _ Hin) in D. apply derives_rep_inv in D as (F & _). by apply none_of_dq.
Qed.

Lemma block_links_unquoted block link :
  link ∈ findall RE_BLOCK_LINK block → 34%N ∉ link.
Proof.
  unfold findall. intros (m & -> & Hm)%list_elem_of_fmap.
  apply finditer_sound in Hm. eapply anchor_target_unquoted; [|done].
  rewrite groups_of_RE_BLOCK_LINK. intros body Hin.
  apply elem_of_cons in Hin as [E|Hin]; [by injection E|by apply elem_of_nil in Hin].
Qed.

Lemma omap_length_le {A B} (f : A → option B) (l : list A) :
  (length (omap f l) ≤ length l)%nat.
Proof. induction l as [|x l IH]; cbn; [done|]. destruct (f x); cbn; lia. Qed.

(** X7: a record has a title and a link, and the link holds no double
    quote; there is at most one record for each heading, and none
    without an article. *)
Theorem digest_records_well_formed unescape html :
  (∀ r, r ∈ extract_resources_from_digest unescape html →
     Title r ≠ [] ∧ Link r ≠ [] ∧ (34%N ∉ Link r))
  ∧ (∀ article_match,
       re_search RE_ARTICLE html = Some article_match →
       (length (extract_resources_from_digest unescape html)
        ≤ length (finditer h3_pattern (default [] (group article_match 1))))%nat)
  ∧ (re_search RE_ARTICLE html = None →
     extract_resources_from_digest unescape html = []).
Proof.
  split; [|split].
  - intros r (a & h & i & mt & _ & E)%elem_of_extract_resources.
    apply digest_entry_Some in E as (NL & _ & NT & _ & [(l & L & K & _)|F]).
    + split; [done|]. split; [done|]. rewrite K. apply not_elem_of_strip.
      apply re_search_sound in L. eapply anchor_target_unquoted; [|done].
      rewrite groups_of_RE_LINK_IN_H3.
      intros body Hin. apply elem_of_cons in Hin as [E|Hin]; [by injection E|].
      apply elem_of_cons in Hin as [E|Hin]; [discriminate E|by apply elem_of_nil in Hin].
    + split; [done|]. split; [done|].
      apply first_resource_link_Some in F as (Hin & _).
      by eapply block_links_unquoted.
  - intros am E. unfold extract_resources_from_digest. rewrite E. cbv zeta.
    rewrite digest_loop_omap, app_nil_l.
    etransitivity; [apply omap_length_le|]. unfold enumerate. by rewrite length_imap.
  - intros E. unfold extract_resources_from_digest. by rewrite E.
Qed.

Lemma digest_records_well_formed_witness :
  Title (Resource (py "#top") (py "Back to top") (py "Navigation.")) ≠ []
  ∧ Link (Resource (py "#top") (py "Back to top") (py "Navigation.")) ≠ []
  ∧ (34%N ∉ Link (Resource (py "#top") (py "Back to top") (py "Navigation."))).
Proof.
  apply (proj1 (digest_records_well_formed no_entities doc_fragment_heading)).
  replace (extract_resources_from_digest no_entities doc_fragment_heading)
    with [Resource (py "#top") (py "Back to top") (py "Navigation.")]
    by (by vm_compute).
  by apply list_elem_of_singleton.
Defined.

(** The image references *)



Lemma derives_sets_group r w cs cs' g :
  derives r w cs cs' →
  lookup_cap g cs ≠ None ∨ sets_group g r = true → lookup_cap g cs' ≠ None.
Proof.
  induction 1 as
    [cs|p c cs Hp|g' lo hi p w cs Hw Hl Hb|r1 r2 w1 w2 cs cs1 cs2 D1 IH1 D2 IH2
    |r1 r2 w cs cs' D IH|r1 r2 w cs cs' D IH|g' r w cs cs' D IH|cs];
    cbn [sets_group]; try (by intros [?|?]).
  - rewrite orb_true_iff. intros [?|[?|?]]; auto.
  - rewrite andb_true_iff. intros [?|[? ?]]; auto.
  - rewrite andb_true_iff. intros [?|[? ?]]; auto.
  - rewrite orb_true_iff. cbn [lookup_cap]. intros H.
    destruct (g =? g')%nat eqn:E; [done|]. apply IH.
    destruct H as [?|[?|?]]; auto.
Qed.

Lemma group_is_set r s m g :
  match_in r s m → sets_group g r = true → group m g ≠ None.
Proof.
  intros (pre & w & rest & _ & D & _) H.
  apply (derives_sets_group _ _ _ _ g D). by right.
Qed.









Lemma image_loop_size a h todo st :
  (size (image_loop a h todo st).2 ≤ size st.2 + length todo)%nat.
Proof.
  revert st. induction todo as [|[i mt] todo IH]; intros [claimed image_map];
    cbn [image_loop length]; [lia|].
  etransitivity; [apply IH|].
  destruct (image_step_spec a h claimed image_map i mt)
    as [->|(link & img & _ & _ & _ & _ & _ & ->)]; cbn [snd]; [lia|].
  rewrite map_size_insert. destruct (image_map !! link); cbn; lia.
Qed.

(** X9: the mapping holds at most one image for each heading, and none
    without an article. *)
Theorem image_map_size html :
  (∀ article_match,
     re_search RE_ARTICLE html = Some article_match →
     (size (extract_image_map html)
      ≤ length (finditer h3_pattern (default [] (group article_match 1))))%nat)
  ∧ (re_search RE_ARTICLE html = None → extract_image_map html = ∅).
Proof.
  unfold extract_image_map. split.
  - intros am ->. cbv zeta. destruct (finditer h3_pattern _) as [|m0 h] eqn:E.
    + by rewrite map_size_empty.
    + rewrite <- E. etransitivity; [apply image_loop_size|].
      cbn [snd]. rewrite map_size_empty. unfold enumerate. by rewrite length_imap.
  - by intros ->.
Qed.

Lemma image_map_size_witness :
  extract_image_map (py "<p>no article here</p>") = ∅.
Proof.
  apply (proj2 (image_map_size (py "<p>no article here</p>"))). by vm_compute.
Defined.

(** The headings in order *)

Lemma in_order_mono a b ms : (b ≤ a)%nat → in_order a ms → in_order b ms.
Proof. destruct ms as [|m ms]; [done|]. cbn. intros ? [? ?]. split; [lia|done]. Qed.

Lemma finditer_from_in_order r skip i pv s :
  in_order (i + skip) (finditer_from r skip i pv s).
Proof.
  revert skip i pv. induction s as [|c s IH]; intros skip i pv.
  - destruct skip; cbn [finditer_from]; [|done].
    destruct (match_at r i pv []) as [[e cs]|] eqn:E; [|done].
    apply match_at_sound in E as (w & rest & _ & _ & ->). cbn. split; [lia|done].
  - destruct skip; cbn [finditer_from].
    + destruct (match_at r i pv (c :: s)) as [[e cs]|] eqn:E.
      * apply match_at_sound in E as (w & rest & _ & _ & ->). cbn [in_order m_start m_end].
        split; [lia|]. eapply in_order_mono; [|apply IH]. lia.
      * eapply in_order_mono; [|apply IH]. lia.
    + replace (i + S skip)%nat with (S i + skip)%nat by lia. apply IH.
Qed.

Lemma in_order_lookup from ms j m1 m2 :
  in_order from ms → ms !! j = Some m1 → ms !! S j = Some m2 →
  (m_end m1 ≤ m_start m2)%nat.
Proof.
  revert from j. induction ms as [|m ms IH]; intros from j H; [done|].
  destruct H as [_ H]. destruct j as [|j]; cbn.
  - intros [= <-]. destruct ms as [|m' ms]; [done|]. intros [= <-].
    destruct H as [? _]. lia.
  - by apply (IH (m_end m)).
Qed.

Lemma h3_match_text w cs cs' :
  derives h3_pattern w cs cs' →
  (∃ post, w = py "<h3" ++ post) ∧ (∃ pre, w = pre ++ py "</h3>").
Proof.
  unfold h3_pattern. cbn [cat foldr]. intros D.
  inversion D as [| | |r1 r2 w1 w' c0 c1 c2 D1 D'| | | |]; subst.
  inversion D' as [| | |r1 r2 w2 w'' c0 c3 c4 D2 D''| | | |]; subst.
  inversion D'' as [| | |r1 r2 w3 w''' c0 c5 c6 D3 D'''| | | |]; subst.
  inversion D''' as [| | |r1 r2 w4 w'''' c0 c7 c8 D4 D''''| | | |]; subst.
  inversion D'''' as [| | |r1 r2 w5 w6 c0 c9 c10 D5 D6| | | |]; subst.
  inversion D6; subst.
  apply derives_length_lit in D1 as ->. apply derives_length_lit in D5 as ->.
  split; [by eexists|]. exists (py "<h3" ++ w2 ++ w3 ++ w4).
  by rewrite app_nil_r, <- !app_assoc.
Qed.

(** X10: every heading is a piece of the article that opens with the tag
    of a heading and ends with its closing tag, and the headings follow one
    another without overlap, so that the content span of a heading
    stops before the heading after it. *)
Theorem headings_in_order html a h i mt :
  heading_of html a h i mt →
  (∃ pre w rest,
     a = pre ++ w ++ rest ∧ m_start mt = length pre
     ∧ m_end mt = (length pre + length w)%nat
     ∧ (∃ post, w = py "<h3" ++ post) ∧ (∃ before, w = before ++ py "</h3>"))
  ∧ (m_start mt < m_end mt ≤ length a)%nat
  ∧ (∀ next, h !! S i = Some next → (m_end mt ≤ m_start next)%nat).
Proof.
  intros (am & _ & -> & -> & Hl).
  assert (mt ∈ finditer h3_pattern (default [] (group am 1))) as Hin
    by (by eapply list_elem_of_lookup_2).
  apply finditer_sound in Hin as (pre & w & rest & E & D & Hs & He).
  destruct (h3_match_text _ _ _ D) as [[post Hw] Hc].
  assert (3 ≤ length w)%nat as L3.
  { rewrite Hw, length_app. assert (length (py "<h3") = 3%nat) as -> by (by vm_compute). lia. }
  split; [exists pre, w, rest; repeat split; try done; by eexists|]. split.
  - rewrite Hs, He, E, !length_app. lia.
  - intros next Hn. eapply in_order_lookup; [|exact Hl|exact Hn].
    apply (finditer_from_in_order h3_pattern 0 0 None).
Qed.

Lemma headings_in_order_witness :
  (∃ pre w rest,
     py "<h3>One</h3><p>text</p>" = pre ++ w ++ rest
     ∧ 0%nat = length pre ∧ 12%nat = (length pre + length w)%nat
     ∧ (∃ post, w = py "<h3" ++ post) ∧ (∃ before, w = before ++ py "</h3>"))
  ∧ (0 < 12 ≤ length (py "<h3>One</h3><p>text</p>"))%nat
  ∧ (∀ next, [Match 0 12 [(1%nat, py "One")]] !! 1%nat = Some next →
       (12 ≤ m_start next)%nat).
Proof.
  apply (headings_in_order (py "<article><h3>One</h3><p>text</p></article>")
           (py "<h3>One</h3><p>text</p>") [Match 0 12 [(1%nat, py "One")]] 0
           (Match 0 12 [(1%nat, py "One")])).
  eexists. split; [by vm_compute|]. split; [by vm_compute|].
  split; [by vm_compute|done].
Defined.

(** *** The run of fetch_dates *)

Lemma links_cons record data url :
  record !! py "Link" = Some url → links (record :: data) = url :: links data.
Proof. intros H. unfold links. cbn [omap list_omap]. by rewrite H. Qed.

Lemma collect_urls_spec progress data urls seen :
  linked data → NoDup urls → (∀ url, url ∈ seen ↔ url ∈ urls) →
  (∀ url, url ∈ urls → progress !! url = None) →
  ∃ new,
    collect_urls progress data urls seen = Some (urls ++ new)
    ∧ NoDup (urls ++ new)
    ∧ (∀ url, url ∈ new ↔
         (url ∉ urls) ∧ progress !! url = None ∧ url ∈ links data).
Proof.
  intros L. revert urls seen.
  induction L as [|record data [url Hl] L IH]; intros urls seen ND S P.
  - exists []. rewrite app_nil_r. split; [done|]. split; [done|].
    intros url. split; [by intros ?%elem_of_nil|].
    by intros (_ & _ & ?%elem_of_nil).
  - cbn [collect_urls]. rewrite Hl.
    destruct (bool_decide (progress !! url = None)) eqn:E1;
      [destruct (bool_decide (url ∉ seen)) eqn:E2|]; cbn [andb].
    + apply bool_decide_eq_true in E1, E2.
      destruct (IH (urls ++ [url]) (seen ∪ {[url]})) as (new & -> & ND' & M).
      * apply NoDup_app. split; [done|]. split; [|apply NoDup_singleton].
        intros u Hu ->%list_elem_of_singleton. apply E2. by apply S.
      * intros u. rewrite elem_of_union, elem_of_singleton, elem_of_app,
          list_elem_of_singleton, S. done.
      * intros u [?| ->%list_elem_of_singleton]%elem_of_app; [by apply P|done].
      * exists (url :: new). rewrite <- app_assoc in *. cbn [app] in *.
        split; [done|]. split; [done|]. intros u.
        rewrite (links_cons _ _ _ Hl).
        rewrite elem_of_cons, M, elem_of_app, list_elem_of_singleton, elem_of_cons.
        split.
        -- intros [->|(N & ? & ?)].
           ++ split; [by rewrite <- S|]. split; [done|by left].
           ++ split; [tauto|]. split; [done|by right].
        -- intros (N & ? & [->|?]); [by left|].
           destruct (decide (u = url)) as [->|]; [by left|]. right. tauto.
    + apply bool_decide_eq_true in E1. apply bool_decide_eq_false in E2.
      apply dec_stable in E2.
      destruct (IH urls seen) as (new & -> & ND' & M); try done.
      exists new. split; [done|]. split; [done|]. intros u.
      rewrite (links_cons _ _ _ Hl), M, elem_of_cons. split; [intros (?&?&?); tauto|].
      intros (N & ? & [->|?]); [|tauto]. by apply S in E2.
    + apply bool_decide_eq_false in E1.
      destruct (IH urls seen) as (new & -> & ND' & M); try done.
      exists new. split; [done|]. split; [done|]. intros u.
      rewrite (links_cons _ _ _ Hl), M, elem_of_cons. split; [intros (?&?&?); tauto|].
      intros (N & ? & [->|?]); [done|tauto].
Qed.

Lemma collect_urls_linked progress data urls seen :
  is_Some (collect_urls progress data urls seen) → linked data.
Proof.
  revert urls seen. induction data as [|record data IH]; intros urls seen;
    [by constructor|].
  cbn [collect_urls]. destruct (record !! py "Link") as [url|] eqn:E;
    [|by intros [? ?]].
  intros H. constructor; [by eexists|].
  destruct (_ && _); by eapply IH.
Qed.

Lemma record_dates_lookup fetch_url completed progress url :
  record_dates fetch_url completed progress !! url
  = if bool_decide (url ∈ completed)
    then Some (process_single_url fetch_url url).2
    else progress !! url.
Proof.
  unfold record_dates. revert progress.
  induction completed as [|u completed IH]; intros progress; cbn [foldl].
  - by rewrite bool_decide_eq_false_2 by apply not_elem_of_nil.
  - rewrite IH. destruct (decide (url ∈ completed)) as [Hin|Hin].
    + by rewrite !bool_decide_eq_true_2 by (done || by right).
    + rewrite (bool_decide_eq_false_2 _ Hin).
      destruct (decide (url = u)) as [->|Hne].
      * rewrite bool_decide_eq_true_2 by (by left). by rewrite lookup_insert_eq.
      * rewrite bool_decide_eq_false_2, lookup_insert_ne; [done|done|].
        by intros [?|?]%elem_of_cons.
Qed.

Lemma record_dates_Permutation fetch_url completed completed' progress :
  completed ≡ₚ completed' →
  record_dates fetch_url completed progress
  = record_dates fetch_url completed' progress.
Proof.
  intros E. apply map_eq. intros url. rewrite !record_dates_lookup.
  destruct (decide (url ∈ completed)) as [Hin|Hin].
  - rewrite !bool_decide_eq_true_2; [done| |done]. by rewrite <- E.
  - rewrite !bool_decide_eq_false_2; [done| |done]. by rewrite <- E.
Qed.

Lemma apply_dates_loop_spec progress data found not_found :
  linked data →
  ∃ found' not_found',
    apply_dates_loop progress data found not_found
    = Some (dated progress <$> data, found', not_found')
    ∧ (found' + not_found' = found + not_found + length data)%nat.
Proof.
  intros L. revert found not_found.
  induction L as [|record data [url Hl] L IH]; intros found not_found.
  - exists found, not_found. split; [done|]. cbn. lia.
  - cbn [apply_dates_loop]. rewrite Hl, fmap_cons.
    assert (dated progress record
            = <[py "Date" := default DEFAULT_DATE (progress !! url)]> record) as ->
      by (unfold dated; by rewrite Hl).
    destruct (bool_decide _);
      [destruct (IH (found + 1)%nat not_found) as (f & n & -> & E)
      |destruct (IH found (not_found + 1)%nat) as (f & n & -> & E)];
      exists f, n; (split; [done|cbn [length]; lia]).
Qed.

Lemma apply_dates_loop_linked progress data found not_found :
  is_Some (apply_dates_loop progress data found not_found) → linked data.
Proof.
  revert found not_found. induction data as [|record data IH];
    intros found not_found; [by constructor|].
  cbn [apply_dates_loop]. destruct (record !! py "Link") as [url|] eqn:E;
    [|by intros [? ?]].
  intros H. constructor; [by eexists|].
  destruct (bool_decide _);
    [destruct (apply_dates_loop progress data (found + 1) not_found) as [[[??]?]|] eqn:A
    |destruct (apply_dates_loop progress data found (not_found + 1)) as [[[??]?]|] eqn:A];
    try (by destruct H); eapply IH; by rewrite A.
Qed.

Lemma Link_not_Date : py "Date" ≠ py "Link".
Proof. by vm_compute. Qed.

Lemma dated_Link progress record :
  dated progress record !! py "Link" = record !! py "Link".
Proof. unfold dated. by rewrite lookup_insert_ne by apply Link_not_Date. Qed.

Lemma links_dated progress data : links (dated progress <$> data) = links data.
Proof.
  unfold links. induction data as [|record data IH]; [done|].
  rewrite fmap_cons. cbn [omap list_omap]. rewrite dated_Link.
  destruct (record !! py "Link"); by rewrite IH.
Qed.

Lemma linked_dated progress data : linked data → linked (dated progress <$> data).
Proof.
  unfold linked. rewrite Forall_fmap. intros H. eapply Forall_impl; [exact H|].
  intros record ?. cbn. by rewrite dated_Link.
Qed.

Lemma elem_of_links url data :
  url ∈ links data ↔ ∃ record, record ∈ data ∧ record !! py "Link" = Some url.
Proof. unfold links. by rewrite list_elem_of_omap. Qed.

(** The progress at the end of [main]. *)
Lemma main_progress fetch_url as_completed data progress :
  (∀ urls, as_completed urls ≡ₚ urls) → linked data →
  ∃ progress' saved,
    main fetch_url as_completed data progress = Some (progress', saved)
    ∧ apply_dates data progress' = Some saved
    ∧ ∀ url, progress' !! url
        = match progress !! url with
          | Some date => Some date
          | None => if bool_decide (url ∈ links data)
                    then Some (process_single_url fetch_url url).2 else None
          end.
Proof.
  intros Hp L. unfold main.
  destruct (collect_urls_spec progress data [] ∅ L) as (new & -> & ND & M).
  { constructor. } { intros u. set_solver. } { by intros u ?%elem_of_nil. }
  cbn [app] in *.
  assert (∀ url, url ∈ new ↔ progress !! url = None ∧ url ∈ links data) as M'.
  { intros u. rewrite M. split; [tauto|]. intros [? ?]. split; [apply not_elem_of_nil|done]. }
  set (progress' := record_dates fetch_url (as_completed new) progress).
  assert (∀ url, progress' !! url
        = match progress !! url with
          | Some date => Some date
          | None => if bool_decide (url ∈ links data)
                    then Some (process_single_url fetch_url url).2 else None
          end) as Hl.
  { intros u. unfold progress'. rewrite record_dates_lookup.
    destruct (progress !! u) as [date|] eqn:E.
    - rewrite bool_decide_eq_false_2; [done|]. rewrite Hp, M'. intros [? _]. congruence.
    - destruct (decide (u ∈ links data)) as [Hin|Hin].
      + rewrite !bool_decide_eq_true_2; [done|done|]. rewrite Hp. by apply M'.
      + rewrite !bool_decide_eq_false_2; [done|done|]. rewrite Hp, M'. by intros [_ ?]. }
  destruct (apply_dates_loop_spec progress' data 0 0 L) as (f & n & A & _).
  destruct new as [|u new].
  - assert (progress' = progress) as E.
    { unfold progress'. by rewrite (proj1 (Permutation_nil_r _) (Hp [])). }
    rewrite E in *.
    unfold apply_dates. rewrite A. eexists _, _. split; [done|]. split; [done|].
    exact Hl.
  - fold progress'. unfold apply_dates. rewrite A.
    eexists _, _. split; [done|]. split; [done|]. exact Hl.
Qed.

(** X11: a run over records that all have their link ends well; it
    leaves every date of the progress file as it was, adds the date of
    [process_single_url] for every other link of the records and for
    nothing else, and then every record is saved with the date that the
    progress holds for its link; the two counters of the report add up
    to the number of the records. *)
Theorem main_resumes fetch_url as_completed data progress :
  (∀ urls, as_completed urls ≡ₚ urls) →
  linked data →
  ∃ progress' data' found not_found,
    main fetch_url as_completed data progress
      = Some (progress', (data', found, not_found))
    ∧ progress ⊆ progress'
    ∧ (∀ url, progress !! url = None →
         progress' !! url
         = if bool_decide (url ∈ links data)
           then Some (process_single_url fetch_url url).2 else None)
    ∧ Forall2 (λ record record' : gmap str str, ∃ url date,
                 record !! py "Link" = Some url ∧ progress' !! url = Some date
                 ∧ record' = <[py "Date" := date]> record) data data'
    ∧ (found + not_found = length data)%nat.
Proof.
  intros Hp L.
  destruct (main_progress fetch_url as_completed data progress Hp L)
    as (progress' & saved & -> & A & Hl).
  unfold apply_dates in A.
  destruct (apply_dates_loop_spec progress' data 0 0 L) as (f & n & A' & E).
  rewrite A' in A. injection A as <-.
  exists progress', (dated progress' <$> data), f, n.
  split; [done|]. split; [|split; [|split; [|lia]]].
  - apply map_subseteq_spec. intros url date H. by rewrite Hl, H.
  - intros url H. by rewrite Hl, H.
  - apply Forall2_fmap_r, Forall2_same_length_lookup_2; [done|].
    intros i record record' H1 H2. rewrite H1 in H2. injection H2 as <-.
    assert (record ∈ data) as Hin by (by eapply list_elem_of_lookup_2).
    destruct (proj1 (Forall_forall _ _) L record Hin) as [url Hu].
    assert (is_Some (progress' !! url)) as [date Hd].
    { rewrite Hl. destruct (progress !! url); [done|].
      rewrite bool_decide_eq_true_2; [done|]. apply elem_of_links. by exists record. }
    exists url, date. split; [done|]. split; [done|].
    unfold dated. rewrite Hu. cbn [from_option id]. by rewrite Hd.
Qed.

Lemma run_data_linked : linked run_data.
Proof.
  unfold linked, run_data.
  repeat (apply Forall_cons; split; [apply (bool_decide_unpack _); by vm_compute|]).
  done.
Qed.

Lemma main_resumes_witness :
  ∃ progress' data' found not_found,
    main offline reverse run_data run_progress
      = Some (progress', (data', found, not_found))
    ∧ run_progress ⊆ progress'
    ∧ (∀ url, run_progress !! url = None →
         progress' !! url
         = if bool_decide (url ∈ links run_data)
           then Some (process_single_url offline url).2 else None)
    ∧ Forall2 (λ record record' : gmap str str, ∃ url date,
                 record !! py "Link" = Some url ∧ progress' !! url = Some date
                 ∧ record' = <[py "Date" := date]> record) run_data data'
    ∧ (found + not_found = length run_data)%nat.
Proof.
  apply (main_resumes offline reverse run_data run_progress).
  - intros urls. apply reverse_Permutation.
  - apply run_data_linked.
Defined.

Lemma collect_urls_sublist progress data urls seen out :
  collect_urls progress data urls seen = Some out →
  ∃ new, out = urls ++ new ∧ new `sublist_of` links data.
Proof.
  revert urls seen. induction data as [|record data IH]; intros urls seen.
  - intros [= <-]. exists []. by rewrite app_nil_r.
  - cbn [collect_urls]. destruct (record !! py "Link") as [url|] eqn:Hl; [|done].
    rewrite (links_cons _ _ _ Hl). destruct (_ && _).
    + intros (new & -> & S)%IH. exists (url :: new).
      rewrite <- app_assoc. split; [done|]. by apply sublist_skip.
    + intros (new & -> & S)%IH. exists new. split; [done|]. by apply sublist_cons.
Qed.

(** X12: the work list of a run holds exactly the links of the records
    that the progress file does not know, each of them once, in the order
    of the records. *)
Theorem urls_to_process_once progress data :
  linked data →
  ∃ urls_to_process,
    collect_urls progress data [] ∅ = Some urls_to_process
    ∧ NoDup urls_to_process
    ∧ (∀ url, url ∈ urls_to_process
              ↔ progress !! url = None ∧ url ∈ links data)
    ∧ urls_to_process `sublist_of` links data.
Proof.
  intros L.
  destruct (collect_urls_spec progress data [] ∅ L) as (new & E & ND & M).
  { constructor. } { intros u. set_solver. } { by intros u ?%elem_of_nil. }
  cbn [app] in *. exists new. split; [done|]. split; [done|]. split.
  - intros u. rewrite M. split; [tauto|]. intros [? ?].
    split; [apply not_elem_of_nil|done].
  - by apply collect_urls_sublist in E as (new' & -> & ?).
Qed.

Lemma urls_to_process_once_witness :
  ∃ urls_to_process,
    collect_urls run_progress run_data [] ∅ = Some urls_to_process
    ∧ NoDup urls_to_process
    ∧ (∀ url, url ∈ urls_to_process
              ↔ run_progress !! url = None ∧ url ∈ links run_data)
    ∧ urls_to_process `sublist_of` links run_data.
Proof. apply (urls_to_process_once run_progress run_data), run_data_linked. Defined.

(** X13: the order in which the pool finishes the work does not show in
    what a run leaves behind. *)
Theorem main_order_independent fetch_url as_completed as_completed' data progress :
  (∀ urls, as_completed urls ≡ₚ urls) →
  (∀ urls, as_completed' urls ≡ₚ urls) →
  main fetch_url as_completed data progress
  = main fetch_url as_completed' data progress.
Proof.
  intros Hp Hp'. unfold main.
  destruct (collect_urls progress data [] ∅) as [[|url urls]|]; [done| |done].
  rewrite (record_dates_Permutation fetch_url
             (as_completed (url :: urls)) (as_completed' (url :: urls)));
    [done|]. by rewrite Hp, Hp'.
Qed.

Lemma main_order_independent_witness :
  main offline reverse run_data run_progress
  = main offline (λ urls, urls) run_data run_progress.
Proof.
  apply (main_order_independent offline reverse (λ urls, urls)).
  - intros urls. apply reverse_Permutation.
  - intros urls. reflexivity.
Defined.

Lemma apply_dates_loop_dated progress data found not_found :
  apply_dates_loop progress (dated progress <$> data) found not_found
  = apply_dates_loop progress data found not_found.
Proof.
  revert found not_found. induction data as [|record data IH];
    intros found not_found; [done|].
  rewrite fmap_cons. cbn [apply_dates_loop]. rewrite dated_Link.
  destruct (record !! py "Link") as [url|] eqn:Hl; [|done].
  rewrite !IH.
  assert (<[py "Date" := default DEFAULT_DATE (progress !! url)]>
            (dated progress record)
          = <[py "Date" := default DEFAULT_DATE (progress !! url)]> record) as ->
    by (unfold dated; by rewrite insert_insert_eq).
  done.
Qed.

(** X14: a run that ended well is resumable: run again on what it
    saved, with whatever network, the script has no work left and saves
    the same records and reports the same counters. *)
Theorem main_rerun fetch_url fetch_url' as_completed as_completed'
    data progress progress' data' found not_found :
  (∀ urls, as_completed urls ≡ₚ urls) →
  main fetch_url as_completed data progress
    = Some (progress', (data', found, not_found)) →
  collect_urls progress' data' [] ∅ = Some []
  ∧ main fetch_url' as_completed' data' progress'
    = Some (progress', (data', found, not_found)).
Proof.
  intros Hp H.
  assert (linked data) as L.
  { apply (collect_urls_linked progress data [] ∅). unfold main in H.
    by destruct (collect_urls progress data [] ∅). }
  destruct (main_progress fetch_url as_completed data progress Hp L)
    as (p & s & E & A & Hl).
  rewrite E in H. injection H as -> ->.
  unfold apply_dates in A.
  destruct (apply_dates_loop_spec progress' data 0 0 L) as (f & n & A' & _).
  rewrite A' in A. injection A as <- <- <-.
  assert (collect_urls progress' (dated progress' <$> data) [] ∅ = Some []) as C.
  { destruct (collect_urls_spec progress' (dated progress' <$> data) [] ∅)
      as (new & -> & _ & M).
    { by apply linked_dated. } { constructor. } { intros u. set_solver. }
    { by intros u ?%elem_of_nil. }
    cbn [app]. f_equal. apply elem_of_nil_inv. intros u (_ & N & Hin)%M.
    rewrite links_dated in Hin. rewrite Hl in N.
    destruct (progress !! u); [done|]. by rewrite bool_decide_eq_true_2 in N. }
  split; [done|]. unfold main. rewrite C. unfold apply_dates.
  by rewrite apply_dates_loop_dated, A'.
Qed.

Lemma main_rerun_witness :
  collect_urls
    (<[py "https://a.example/2023/03/15/post" := py "15.03.2023"]> run_progress)
    (dated (<[py "https://a.example/2023/03/15/post" := py "15.03.2023"]> run_progress)
       <$> run_data) [] ∅ = Some []
  ∧ main (λ url, Some (py "<p>now online</p>")) (λ urls, urls)
      (dated (<[py "https://a.example/2023/03/15/post" := py "15.03.2023"]> run_progress)
         <$> run_data)
      (<[py "https://a.example/2023/03/15/post" := py "15.03.2023"]> run_progress)
    = Some (<[py "https://a.example/2023/03/15/post" := py "15.03.2023"]> run_progress,
            (dated (<[py "https://a.example/2023/03/15/post" := py "15.03.2023"]> run_progress)
               <$> run_data, 3%nat, 0%nat)).
Proof.
  apply (main_rerun offline (λ url, Some (py "<p>now online</p>")) reverse (λ urls, urls)
           run_data run_progress
           (<[py "https://a.example/2023/03/15/post" := py "15.03.2023"]> run_progress)
           (dated (<[py "https://a.example/2023/03/15/post" := py "15.03.2023"]> run_progress)
              <$> run_data) 3%nat 0%nat).
  - intros urls. apply reverse_Permutation.
  - apply (bool_decide_unpack _). by vm_compute.
Defined.

(** *** The names of the image files *)

Lemma uint_str_inj u u' : uint_str u = uint_str u' → u = u'.
Proof.
  revert u'. induction u; intros u'; destruct u'; cbn [uint_str];
    intros H; try done; injection H as H; f_equal; by apply IHu.
Qed.

Lemma dec_inj n n' : dec n = dec n' → n = n'.
Proof. intros H. by apply DecimalN.Unsigned.to_uint_inj, uint_str_inj. Qed.

Lemma numbered_inj base_name ext k k' :
  numbered base_name ext k = numbered base_name ext k' → k = k'.
Proof.
  unfold numbered. intros H. apply app_inv_head, app_inv_head, app_inv_tail in H.
  by apply dec_inj.
Qed.

(** The loop depends on the set only through the numbered names from the
    counter on. *)
Lemma free_name_agree fuel used used' base_name ext counter :
  (∀ k, (counter ≤ k)%N →
     numbered base_name ext k ∈ used ↔ numbered base_name ext k ∈ used') →
  free_name fuel used base_name ext (numbered base_name ext counter) (counter + 1)
  = free_name fuel used' base_name ext (numbered base_name ext counter) (counter + 1).
Proof.
  revert counter. induction fuel as [|fuel IH]; intros counter H; [done|].
  cbn [free_name]. fold (numbered base_name ext (counter + 1)).
  rewrite (bool_decide_ext _ _ (H counter (N.le_refl _))).
  rewrite (IH (counter + 1)%N); [done|]. intros k ?. apply H. lia.
Qed.

Lemma free_name_numbered fuel used base_name ext counter :
  (size used < fuel)%nat →
  ∃ k, (counter ≤ k)%N
    ∧ free_name fuel used base_name ext (numbered base_name ext counter) (counter + 1)
      = Some (numbered base_name ext k)
    ∧ (numbered base_name ext k ∉ used)
    ∧ ∀ j, (counter ≤ j < k)%N → numbered base_name ext j ∈ used.
Proof.
  revert used counter. induction fuel as [|fuel IH]; intros used counter Hs; [lia|].
  cbn [free_name]. fold (numbered base_name ext (counter + 1)).
  case_bool_decide as Hin.
  - assert (size (used ∖ {[numbered base_name ext counter]}) < fuel)%nat as Hs'.
    { assert (size (used ∖ {[numbered base_name ext counter]}) = size used - 1)%nat
        as -> by (rewrite size_difference by set_solver; by rewrite size_singleton).
      assert (size used ≠ 0)%nat by (intros ?%size_empty_inv; set_solver).
      lia. }
    destruct (IH _ (counter + 1)%N Hs') as (k & Hk & E & Hn & Hb).
    rewrite (free_name_agree fuel used (used ∖ {[numbered base_name ext counter]})).
    + exists k. split; [lia|]. split; [done|]. split.
      * intros Hu. apply Hn. apply elem_of_difference. split; [done|].
        rewrite elem_of_singleton. intros ?%numbered_inj. lia.
      * intros j Hj. destruct (decide (j = counter)) as [->|]; [done|].
        assert (numbered base_name ext j
                ∈ used ∖ {[numbered base_name ext counter]}) as Hd
          by (apply Hb; lia).
        by apply elem_of_difference in Hd as [? _].
    + intros j Hj. rewrite elem_of_difference, elem_of_singleton. split; [|tauto].
      intros ?. split; [done|]. intros ?%numbered_inj. lia.
  - exists counter. split; [lia|]. split; [done|]. split; [done|]. intros j. lia.
Qed.

(** X15: the loop that numbers a name ends, within two turns more than
    there are names in use: a name that is free is kept, and a name in
    use gets the first number from 2 on that makes it free. *)
Theorem free_name_first_free fuel used_filenames base_name ext filename :
  (size used_filenames + 1 < fuel)%nat →
  ∃ final_name,
    free_name fuel used_filenames base_name ext filename 2 = Some final_name
    ∧ (final_name ∉ used_filenames)
    ∧ (filename ∉ used_filenames → final_name = filename)
    ∧ (filename ∈ used_filenames →
       ∃ counter, (2 ≤ counter)%N
         ∧ final_name = base_name ++ py "_" ++ dec counter ++ ext
         ∧ ∀ j, (2 ≤ j < counter)%N →
             base_name ++ py "_" ++ dec j ++ ext ∈ used_filenames).
Proof.
  intros Hs. destruct fuel as [|fuel]; [lia|]. cbn [free_name].
  case_bool_decide as Hin.
  - destruct (free_name_numbered fuel used_filenames base_name ext 2)
      as (k & Hk & E & Hn & Hb); [lia|].
    exists (numbered base_name ext k). split; [exact E|]. split; [done|].
    split; [done|]. intros _. by exists k.
  - exists filename. split; [done|]. split; [done|]. split; [done|]. done.
Qed.

Lemma free_name_first_free_witness :
  ∃ final_name,
    free_name 3 {[py "cover.jpg"]} (py "cover") (py ".jpg") (py "cover.jpg") 2
      = Some final_name
    ∧ (final_name ∉ ({[py "cover.jpg"]} : gset str))
    ∧ (py "cover.jpg" ∉ ({[py "cover.jpg"]} : gset str) → final_name = py "cover.jpg")
    ∧ (py "cover.jpg" ∈ ({[py "cover.jpg"]} : gset str) →
       ∃ counter, (2 ≤ counter)%N
         ∧ final_name = py "cover" ++ py "_" ++ dec counter ++ py ".jpg"
         ∧ ∀ j, (2 ≤ j < counter)%N →
             py "cover" ++ py "_" ++ dec j ++ py ".jpg" ∈ ({[py "cover.jpg"]} : gset str)).
Proof.
  apply (free_name_first_free 3 {[py "cover.jpg"]} (py "cover") (py ".jpg") (py "cover.jpg")).
  rewrite size_singleton. lia.
Defined.

Lemma free_name_mono fuel fuel' used base_name ext final_name counter out :
  (fuel ≤ fuel')%nat →
  free_name fuel used base_name ext final_name counter = Some out →
  free_name fuel' used base_name ext final_name counter = Some out.
Proof.
  revert fuel' final_name counter.
  induction fuel as [|fuel IH]; intros fuel' final_name counter Hle; [done|].
  destruct fuel' as [|fuel']; [lia|]. cbn [free_name].
  case_bool_decide; [|done]. apply IH. lia.
Qed.

Lemma prepare_tasks_spec clean_filename splitext fuel items used tasks :
  (size used + length items < fuel)%nat →
  ∃ new,
    prepare_tasks clean_filename splitext fuel items used tasks = Some (tasks ++ new)
    ∧ task_items new = items
    ∧ NoDup (task_names new)
    ∧ ∀ name, name ∈ task_names new → name ∉ used.
Proof.
  revert used tasks. induction items as [|[resource_link img_url] items IH];
    intros used tasks Hs.
  - exists []. rewrite app_nil_r. split; [done|]. split; [done|].
    split; [constructor|]. by intros ? ?%elem_of_nil.
  - cbn [prepare_tasks length] in *. cbv zeta.
    destruct (splitext (clean_filename img_url)) as [base_name ext].
    destruct (free_name_first_free fuel used base_name ext (clean_filename img_url))
      as (final_name & -> & Hn & _); [lia|].
    destruct (IH (used ∪ {[final_name]})
                (tasks ++ [(resource_link, img_url, final_name)]))
      as (new & -> & Hi & ND & Hu).
    { rewrite size_union by set_solver. rewrite size_singleton. lia. }
    exists ((resource_link, img_url, final_name) :: new).
    rewrite <- app_assoc. split; [done|]. unfold task_items, task_names in *.
    cbn [fmap list_fmap fst snd]. split; [by rewrite <- Hi|]. split.
    + constructor; [|done]. intros Hin. apply (Hu _ Hin).
      apply elem_of_union. right. by apply elem_of_singleton.
    + intros name [->|Hin]%elem_of_cons; [done|].
      intros ?. apply (Hu _ Hin). apply elem_of_union. by left.
Qed.

(** X16: with more turns for each name than there are items, the
    preparation of the tasks ends, with one task for each item of the
    image map, in their order, and no two tasks have the same name for
    their file, whatever [clean_filename] and [os.path.splitext] return. *)
Theorem prepare_tasks_distinct clean_filename splitext fuel items :
  (length items < fuel)%nat →
  ∃ tasks,
    prepare_tasks clean_filename splitext fuel items ∅ [] = Some tasks
    ∧ tasks.*1 = items
    ∧ NoDup tasks.*2.
Proof.
  intros Hs.
  destruct (prepare_tasks_spec clean_filename splitext fuel items ∅ [])
    as (new & E & Hi & ND & _).
  { rewrite size_empty. lia. }
  exists new. by split.
Qed.

Lemma prepare_tasks_distinct_witness :
  ∃ tasks,
    prepare_tasks (λ img_url, py "cover.jpg") (λ filename, (py "cover", py ".jpg")) 3
      [(py "https://a.example/one", py "https://suvitruf.ru/wp-content/uploads/1/cover.png");
       (py "https://b.example/two", py "https://suvitruf.ru/wp-content/uploads/2/cover.png")]
      ∅ [] = Some tasks
    ∧ tasks.*1
      = [(py "https://a.example/one", py "https://suvitruf.ru/wp-content/uploads/1/cover.png");
         (py "https://b.example/two", py "https://suvitruf.ru/wp-content/uploads/2/cover.png")]
    ∧ NoDup tasks.*2.
Proof.
  apply (prepare_tasks_distinct (λ img_url, py "cover.jpg")
           (λ filename, (py "cover", py ".jpg")) 3).
  cbn [length]. lia.
Defined.

(** *** The listing of the digests *)

Lemma none_of_lt u : forallb (none_of [60]%N) u = true → 60%N ∉ u.
Proof.
  induction u as [|c u IH]; cbn [forallb]; [by intros _ ?%elem_of_nil|].
  intros [Hc Hu]%andb_true_iff [<-|H]%elem_of_cons; [by vm_compute in Hc|by apply IH].
Qed.

Lemma groups_of_RE_H1_LINK :
  groups_of RE_H1_LINK
  = [(1%nat, plus (none_of dq));
     (2%nat, cat [star (none_of [60]%N); lit DIGEST_WORDS; star (none_of [60]%N)])].
Proof. by vm_compute. Qed.

Lemma listed_digest_Some unescape article url title :
  listed_digest unescape article = Some (url, title) →
  announcement unescape url title.
Proof.
  unfold listed_digest.
  destruct (re_search RE_H1_LINK article) as [m|] eqn:S; [|done].
  cbv zeta. intros [= <- <-]. apply re_search_sound in S.
  assert (sets_group 1 RE_H1_LINK = true) as S1 by (by vm_compute).
  assert (sets_group 2 RE_H1_LINK = true) as S2 by (by vm_compute).
  destruct (group m 1) as [u|] eqn:E1;
    [|exfalso; by apply (group_is_set _ _ _ 1%nat S S1)].
  destruct (group m 2) as [t|] eqn:E2;
    [|exfalso; by apply (group_is_set _ _ _ 2%nat S S2)].
  cbn [from_option id].
  destruct (group_derives _ _ _ _ _ S E1) as (body & c1 & c2 & Hin & D).
  destruct (group_derives _ _ _ _ _ S E2) as (body' & c1' & c2' & Hin' & D').
  rewrite groups_of_RE_H1_LINK in Hin, Hin'.
  apply elem_of_cons in Hin as [[= ->]|Hin].
  2: { apply elem_of_cons in Hin as [[=]|?%elem_of_nil]; done. }
  apply elem_of_cons in Hin' as [[=]|Hin'].
  apply elem_of_cons in Hin' as [[= ->]|?%elem_of_nil]; [|done].
  apply derives_rep_inv in D as (F & L & _).
  split; [intros ->; cbn [length] in L; lia|]. split; [by apply none_of_dq|].
  cbn [cat foldr] in D'.
  inversion D' as [| | |r1 r2 w1 w' c0 c3 c4 D1 D''| | | |]; subst.
  inversion D'' as [| | |r1 r2 w2 w'' c0 c5 c6 D2 D'''| | | |]; subst.
  inversion D''' as [| | |r1 r2 w3 w4 c0 c7 c8 D3 D4| | | |]; subst.
  inversion D4; subst.
  apply derives_rep_inv in D1 as (F1 & _). apply derives_rep_inv in D3 as (F3 & _).
  apply derives_length_lit in D2 as ->. rewrite app_nil_r.
  exists w1, w3. split; [done|]. split; by apply none_of_lt.
Qed.

(** X17: every digest of the listing has an address that is not empty
    and holds no double quote, and its title is what [unescape] makes of
    the stripped text of the anchor, a text without [<] that holds the
    two words of the series; there is at most one digest for each article
    of the page. *)
Theorem listed_digests_announced unescape html :
  (∀ url title,
     (url, title) ∈ get_digest_urls_from_listing unescape html →
     announcement unescape url title)
  ∧ (length (get_digest_urls_from_listing unescape html)
     ≤ length (finditer RE_ARTICLE_BLOCK html))%nat.
Proof.
  unfold get_digest_urls_from_listing. cbv zeta. split.
  - intros url title (article & _ & H)%list_elem_of_omap.
    by apply listed_digest_Some in H.
  - etransitivity; [apply omap_length_le|]. by rewrite length_fmap.
Qed.

Lemma listed_digests_announced_witness :
  announcement no_entities (py "https://suvitruf.ru/2023/01/01/digest-100/")
    (py "Недельный геймдев: #100 — 1 января, 2023").
Proof.
  apply (proj1 (listed_digests_announced no_entities doc_listing)).
  replace (get_digest_urls_from_listing no_entities doc_listing)
    with [(py "https://suvitruf.ru/2023/01/01/digest-100/",
           py "Недельный геймдев: #100 — 1 января, 2023")]
    by (by vm_compute).
  by apply list_elem_of_singleton.
Defined.
